(** * The tunnel launcher of nuclide: routing of tunnel messages

    A shallow embedding of [launch] (the tunnel subscriber that
    [module.exports] of the launcher file defines) and the properties of its
    message routing.

    [launch] makes one [Map] from tunnel id to [SocketManager], registers a
    subscriber on the channel ['tunnel'], and for every connection subscribes
    an [async] callback to the transport's messages.  The callback parses a
    message, looks the tunnel id up in the map, and creates a
    [SocketManager], forwards to one, or closes one.

    After the launcher come the fake timers of nuclide-jasmine (module
    [FakeTimer]) and the functions of the outline view that compute (module
    [OutlineView]); their properties are in [FakeTimerFacts] and
    [OutlineViewFacts]. *)

From Stdlib Require Import ZArith.
From stdpp Require Import gmap strings list sorting.

Local Open Scope string_scope.
Local Open Scope list_scope.

(** ** Values *)

(** What [JSON.parse] returns.  Numbers are the integers (a port is one);
    the members of an object are in the order of the text. *)
#[warnings="-register-all"] Inductive json : Type :=
| JNull
| JBool (b : bool)
| JNumber (n : Z)
| JString (s : string)
| JArray (items : list json)
| JObject (members : list (string * json)).

(** A JavaScript value as the callback sees one: the result of reading a
    property is a parsed value or [undefined]. *)
Definition value : Type := option json.
Abbreviation undefined := (@None json) (only parsing).

(** A raw message of the transport.  [JSON.parse] is a built-in of the
    language and not part of the launcher; a text is represented by what
    [JSON.parse] makes of it: a [SyntaxError], or the value it denotes. *)
Inductive payload : Type :=
| not_JSON
| JSON_text (j : json).

Inductive exception : Type :=
| SyntaxError      (* JSON.parse *)
| TypeError        (* property read of null *)
| AssertionError.  (* invariant(...) of 'assert' *)

(** The three properties the callback reads. *)
Inductive field : Type := f_event | f_tunnelId | f_remotePort.

Definition field_name (f : field) : string :=
  match f with
  | f_event => "event"
  | f_tunnelId => "tunnelId"
  | f_remotePort => "remotePort"
  end.

(** The last member of that name, as [JSON.parse] keeps the last of
    duplicate names. *)
Fixpoint member (name : string) (members : list (string * json)) : value :=
  match members with
  | [] => undefined
  | (n, v) :: rest =>
      match member name rest with
      | Some w => Some w
      | None => if String.eqb n name then Some v else undefined
      end
  end.

(** [x === 'literal']. *)
Definition strict_eq (x : value) (literal : string) : bool :=
  match x with
  | Some (JString s) => String.eqb s literal
  | _ => false
  end.

(** ** The collaborators *)

(** A transport is an object of the server; only its identity matters. *)
Definition Transport : Type := nat.

(** A [SocketManager] is opaque to the launcher: an object (its identity is
    [sm_ref], the number of managers constructed before it) that remembers
    the three arguments of its constructor. *)
Record SocketManager : Type := mkSocketManager {
  sm_ref : nat;
  sm_tunnelId : value;
  sm_remotePort : value;
  sm_transport : Transport
}.

(** What the launcher does to the outside, in the order it does it.  The
    constructor, [send] and [close] of a [SocketManager] are calls out of the
    launcher; each is recorded and taken to return. *)
Inductive effect : Type :=
| Log (text : string)                              (* logger.info(text) *)
| New (sm : SocketManager)                         (* new SocketManager(...) *)
| Send (sm : SocketManager) (message : json)       (* sm.send(message) *)
| Close (sm : SocketManager).                      (* sm.close() *)

(** ** The map *)

(** Keys of a [Map] are compared by SameValueZero: primitives by value,
    objects and arrays by identity.  A parsed object is a new object, so as a
    key it is numbered, by the count of managers constructed when it is
    stored. *)
Inductive key : Type :=
| k_undefined
| k_null
| k_boolean (b : bool)
| k_number (n : Z)
| k_string (s : string)
| k_object (r : nat).

#[global] Instance key_eq_dec : EqDecision key.
Proof. solve_decision. Defined.

Definition key_encode (k : key) : unit + unit + bool + Z + string + nat :=
  match k with
  | k_undefined => inl (inl (inl (inl (inl tt))))
  | k_null => inl (inl (inl (inl (inr tt))))
  | k_boolean b => inl (inl (inl (inr b)))
  | k_number n => inl (inl (inr n))
  | k_string s => inl (inr s)
  | k_object r => inr r
  end.

Definition key_decode (x : unit + unit + bool + Z + string + nat) : key :=
  match x with
  | inl (inl (inl (inl (inl _)))) => k_undefined
  | inl (inl (inl (inl (inr _)))) => k_null
  | inl (inl (inl (inr b))) => k_boolean b
  | inl (inl (inr n)) => k_number n
  | inl (inr s) => k_string s
  | inr r => k_object r
  end.

#[global] Instance key_countable : Countable key.
Proof.
  refine (inj_countable' key_encode key_decode _).
  intros []; reflexivity.
Defined.

(** The key of a primitive value; an object or array has none by value. *)
Definition primitive_key (v : value) : option key :=
  match v with
  | None => Some k_undefined
  | Some JNull => Some k_null
  | Some (JBool b) => Some (k_boolean b)
  | Some (JNumber n) => Some (k_number n)
  | Some (JString s) => Some (k_string s)
  | Some (JArray _) | Some (JObject _) => None
  end.

(** The key a value is when [fresh] managers were constructed. *)
Definition Map_key (fresh : nat) (v : value) : key :=
  match primitive_key v with
  | Some k => k
  | None => k_object fresh
  end.

(** ** State and the monad of the callback *)

(** The map that [launch] makes, and the number of managers constructed so
    far, which is the identity of the next one. *)
Record state : Type := mkState {
  idToSocketManager : gmap key SocketManager;
  constructed : nat
}.

Inductive completion (A : Type) : Type :=
| normal (a : A)
| thrown (e : exception).
Arguments normal {A} a.
Arguments thrown {A} e.

(** A computation reads and writes the state, records its effects and
    completes normally or by a throw. *)
Definition M (A : Type) : Type := state → completion A * state * list effect.

Definition ret {A} (a : A) : M A := λ st, (normal a, st, []).

Definition throw {A} (e : exception) : M A := λ st, (thrown e, st, []).

Definition bind {A B} (m : M A) (k : A → M B) : M B :=
  λ st,
    match m st with
    | (normal a, st1, out1) =>
        match k a st1 with
        | (c, st2, out2) => (c, st2, out1 ++ out2)
        end
    | (thrown e, st1, out1) => (thrown e, st1, out1)
    end.

Declare Scope launcher_scope.
Delimit Scope launcher_scope with launcher.
Notation "x <- m ;; k" := (bind m (λ x, k))
  (at level 100, m at next level, right associativity) : launcher_scope.
Notation "m ;; k" := (bind m (λ _, k))
  (at level 100, right associativity) : launcher_scope.
Local Open Scope launcher_scope.

Definition emit (e : effect) : M unit := λ st, (normal tt, st, [e]).

(** [JSON.parse(data)]. *)
Definition JSON_parse (data : payload) : M json :=
  match data with
  | not_JSON => throw SyntaxError
  | JSON_text j => ret j
  end.

(** [message.f] for one of the three properties.  Reading a property of
    [null] throws; numbers, booleans, strings and arrays have none of the
    three, nor has [Object.prototype]. *)
Definition read (message : json) (f : field) : M value :=
  match message with
  | JNull => throw TypeError
  | JObject members => ret (member (field_name f) members)
  | _ => ret undefined
  end.

(** The key that the value of [tunnelId] is in this call. *)
Definition identity (tunnelId : value) : M key :=
  λ st, (normal (Map_key (constructed st) tunnelId), st, []).

(** [idToSocketManager.get(tunnelId)]. *)
Definition Map_get (id : key) : M (option SocketManager) :=
  λ st, (normal (idToSocketManager st !! id), st, []).

(** [idToSocketManager.set(tunnelId, sm)]. *)
Definition Map_set (id : key) (sm : SocketManager) : M unit :=
  λ st,
    (normal tt, mkState (<[id := sm]> (idToSocketManager st)) (constructed st), []).

(** [logger.info(text)]. *)
Definition logger_info (text : string) : M unit := emit (Log text).

(** [new SocketManager(tunnelId, remotePort, transport)]. *)
Definition new_SocketManager (tunnelId remotePort : value)
    (transport : Transport) : M SocketManager :=
  λ st,
    let sm := mkSocketManager (constructed st) tunnelId remotePort transport in
    (normal sm, mkState (idToSocketManager st) (S (constructed st)), [New sm]).

(** [invariant(socketManager)]: throws unless the value is truthy. *)
Definition invariant (socketManager : option SocketManager) : M SocketManager :=
  match socketManager with
  | Some sm => ret sm
  | None => throw AssertionError
  end.

Definition socketManager_send (sm : SocketManager) (message : json) : M unit :=
  emit (Send sm message).

Definition socketManager_close (sm : SocketManager) : M unit :=
  emit (Close sm).

(** ** The launcher *)

(** The body of the callback that [onConnection(transport)] subscribes. *)
Definition on_message (transport : Transport) (data : payload) : M unit :=
  message <- JSON_parse data ;;
  event <- read message f_event ;;
  tunnelId <- read message f_tunnelId ;;
  id <- identity tunnelId ;;
  socketManager <- Map_get id ;;
  if strict_eq event "proxyCreated" then
    (logger_info "creating connection manager" ;;
     arg_tunnelId <- read message f_tunnelId ;;
     arg_remotePort <- read message f_remotePort ;;
     sm <- new_SocketManager arg_tunnelId arg_remotePort transport ;;
     Map_set id sm)
  else if strict_eq event "connection" || strict_eq event "data" then
    (sm <- invariant socketManager ;;
     socketManager_send sm message)
  else if strict_eq event "proxyClosed" then
    (sm <- invariant socketManager ;;
     socketManager_close sm)
  else
    ret tt.

(** The callback is an [async] function without [await]: a call runs the
    body to its end and returns a promise, fulfilled when the body completes
    and rejected with what it throws.  Nothing is thrown to the caller. *)
Inductive promise : Type :=
| fulfilled
| rejected (e : exception).

Definition async (body : M unit) (st : state) : promise * state * list effect :=
  match body st with
  | (normal _, st', out) => (fulfilled, st', out)
  | (thrown e, st', out) => (rejected e, st', out)
  end.

Definition handler (transport : Transport) (data : payload) :
    state → promise * state * list effect :=
  async (on_message transport data).

(** [onConnection(transport)]: logs and subscribes [handler transport] to
    [transport.onMessage()]. *)
Definition onConnection (transport : Transport) : M unit :=
  logger_info "connection made!".

(** [launch(launcherParams)]: logs, makes the map, and registers the
    subscriber.  The state it leaves: *)
Definition launch : state * list effect :=
  (mkState ∅ 0, [Log "adding tunnel subscriber!"]).

(** What arrives at the subscriber: a connection, or a message on the
    subscription of a connection. *)
Inductive inbound : Type :=
| connection (transport : Transport)
| message_on (transport : Transport) (data : payload).

(** One arrival.  The promise of the callback is dropped by [subscribe]. *)
Definition step (i : inbound) (st : state) : state * list effect :=
  match i with
  | connection transport =>
      match onConnection transport st with
      | (_, st', out) => (st', out)
      end
  | message_on transport data =>
      match handler transport data st with
      | (_, st', out) => (st', out)
      end
  end.

(** Arrivals in their order. *)
Fixpoint run (arrivals : list inbound) (st : state) : state * list effect :=
  match arrivals with
  | [] => (st, [])
  | i :: rest =>
      match step i st with
      | (st1, out1) =>
          match run rest st1 with
          | (st2, out2) => (st2, out1 ++ out2)
          end
      end
  end.

(** The messages sent to a manager, in order. *)
Fixpoint sent_to (r : nat) (out : list effect) : list json :=
  match out with
  | [] => []
  | Send sm message :: rest =>
      if decide (sm_ref sm = r) then message :: sent_to r rest else sent_to r rest
  | _ :: rest => sent_to r rest
  end.

(** ** Vocabulary of the properties *)

(** The arrival is a [proxyCreated] for the tunnel id [id]. *)
Definition creates (id : key) (i : inbound) : bool :=
  match i with
  | message_on _ (JSON_text (JObject members)) =>
      strict_eq (member "event" members) "proxyCreated"
      && bool_decide (primitive_key (member "tunnelId" members) = Some id)
  | _ => false
  end.

(** The message of the arrival, when it is a [connection] or [data] for the
    tunnel id [id]. *)
Definition forwarded (id : key) (i : inbound) : option json :=
  match i with
  | message_on _ (JSON_text (JObject members)) =>
      if (strict_eq (member "event" members) "connection"
          || strict_eq (member "event" members) "data")
         && bool_decide (primitive_key (member "tunnelId" members) = Some id)
      then Some (JObject members)
      else None
  | _ => None
  end.

(** The manager an effect calls [send] or [close] of. *)
Definition target (e : effect) : option nat :=
  match e with
  | Send sm _ | Close sm => Some (sm_ref sm)
  | Log _ | New _ => None
  end.

(** An effect that tells of a failure.  The launcher logs through
    [logger.info] only. *)
Definition reports (e : effect) : bool :=
  match e with
  | Log _ => true
  | _ => false
  end.

(** What holds of the states the launcher reaches: the managers in the map
    were constructed, an object that is a key was stored, and no manager is
    under two keys. *)
Definition well_formed (st : state) : Prop :=
  (∀ k sm, idToSocketManager st !! k = Some sm → sm_ref sm < constructed st)
  ∧ (∀ r sm, idToSocketManager st !! k_object r = Some sm → r < constructed st)
  ∧ (∀ k1 k2 sm1 sm2,
       idToSocketManager st !! k1 = Some sm1 →
       idToSocketManager st !! k2 = Some sm2 →
       sm_ref sm1 = sm_ref sm2 → k1 = k2).

(** The manager [r] is in the map, under [id] only. *)
Definition registered (id : key) (r : nat) (st : state) : Prop :=
  (∃ sm, idToSocketManager st !! id = Some sm ∧ sm_ref sm = r)
  ∧ r < constructed st
  ∧ (∀ k sm, idToSocketManager st !! k = Some sm → sm_ref sm = r → k = id).

(** The failures of a message: a payload that does not parse, and a
    [connection], [data] or [proxyClosed] whose tunnel id has no entry. *)
Inductive fails (st : state) : payload → exception → Prop :=
| fails_malformed : fails st not_JSON SyntaxError
| fails_unknown_tunnel members :
    member "event" members ∈
      [Some (JString "connection"); Some (JString "data");
       Some (JString "proxyClosed")] →
    idToSocketManager st !! Map_key (constructed st) (member "tunnelId" members)
      = None →
    fails st (JSON_text (JObject members)) AssertionError.

(** The messages of the scenario of tunnel [t1], and one of tunnel [t2]. *)
Definition proxyCreated_t1 (port : Z) : list (string * json) :=
  [("event", JString "proxyCreated"); ("tunnelId", JString "t1");
   ("remotePort", JNumber port)].

Definition data_t1 : list (string * json) :=
  [("event", JString "data"); ("tunnelId", JString "t1");
   ("payload", JString "hello")].

Definition proxyClosed_t1 : list (string * json) :=
  [("event", JString "proxyClosed"); ("tunnelId", JString "t1")].

Definition data_t2 : list (string * json) :=
  [("event", JString "data"); ("tunnelId", JString "t2")].

Definition ping_t1 : list (string * json) :=
  [("event", JString "ping"); ("tunnelId", JString "t1")].

Definition proxyCreated_no_port : list (string * json) :=
  [("event", JString "proxyCreated"); ("tunnelId", JString "t1")].

Definition proxyCreated_t2 : list (string * json) :=
  [("event", JString "proxyCreated"); ("tunnelId", JString "t2");
   ("remotePort", JNumber 9090)].

Definition manager_t1 (r : nat) (port : Z) (transport : Transport) : SocketManager :=
  mkSocketManager r (Some (JString "t1")) (Some (JNumber port)) transport.

(** The state once tunnel [t1] was created on transport 0 after [launch]. *)
Definition state_t1 : state :=
  mkState {[ k_string "t1" := manager_t1 0 8080 0 ]} 1.

(** The arrival is a [proxyCreated]: a message, an object, whose [event] is
    that string. *)
Definition creating (i : inbound) : bool :=
  match i with
  | message_on _ (JSON_text (JObject members)) =>
      strict_eq (member "event" members) "proxyCreated"
  | _ => false
  end.

(** The managers constructed, in the order of construction. *)
Fixpoint constructions (out : list effect) : list SocketManager :=
  match out with
  | [] => []
  | New sm :: rest => sm :: constructions rest
  | _ :: rest => constructions rest
  end.

(** The manager an effect is a call of [send] or [close] of. *)
Definition used (e : effect) : option SocketManager :=
  match e with
  | Send sm _ | Close sm => Some sm
  | Log _ | New _ => None
  end.

(** * The fake timers of nuclide-jasmine

    [faketimer.js] keeps a clock [now] and the pending timeouts in five
    variables of the module, and replaces [setTimeout], [clearTimeout],
    [setInterval], [clearInterval] and [Date.now] by functions on them;
    [advanceClock] moves the clock and calls what is due. *)
Module FakeTimer.

Local Open Scope nat_scope.

(** A callback is a function of the test, known by a name, or the closure
    [action] that [fakeSetInterval] makes of such a function, the id of the
    interval and its period. *)
Inductive callback : Type :=
| function (f : nat)
| action (id : nat) (f : nat) (ms : Z).

(** An element of [timeouts], the array [[id, strikeTime, callback]].  Times
    are in milliseconds, and integers here. *)
Record timeout : Type := mkTimeout {
  t_id : nat;
  t_strikeTime : Z;
  t_callback : callback
}.

(** The variables of the module.  [intervalTimeouts] is an object used as a
    map from the id of an interval to the id of its pending timeout. *)
Record globals : Type := mkGlobals {
  now : Z;
  timeoutCount : nat;
  intervalCount : nat;
  timeouts : list timeout;
  intervalTimeouts : gmap nat nat
}.

(** The comparison of [fakeSetTimeout]: [strikeTime0 - strikeTime1] is not
    positive. *)
Definition by_strikeTime (t0 t1 : timeout) : Prop :=
  (t_strikeTime t0 ≤ t_strikeTime t1)%Z.

#[global] Instance by_strikeTime_dec t0 t1 : Decision (by_strikeTime t0 t1).
Proof. unfold by_strikeTime. apply _. Defined.

(** [Array.prototype.sort] with that comparison is of the language; the
    module is embedded over any function that sorts. *)
Class ArraySort : Type := sort : list timeout → list timeout.

(** What a function of the test does when called, to the variables of the
    module (through the functions of the module); it returns. *)
Class Callbacks : Type := body : nat → globals → globals.

(** The values of the variables when the module is loaded. *)
Definition initial : globals := mkGlobals 0 0 0 [] ∅.

Definition resetTimeouts (g : globals) : globals := initial.

Definition fakeSetTimeout `{ArraySort} (callback : callback) (ms : Z)
    (g : globals) : nat * globals :=
  let id := S (timeoutCount g) in
  (id,
   mkGlobals (now g) id (intervalCount g)
     (sort (timeouts g ++ [mkTimeout id (now g + ms) callback]))
     (intervalTimeouts g)).

(** The argument is a number, or [undefined] (from [fakeClearInterval]),
    which is the id of no timeout. *)
Definition fakeClearTimeout (idToClear : option nat) (g : globals) : globals :=
  mkGlobals (now g) (timeoutCount g) (intervalCount g)
    (filter (λ t, Some (t_id t) ≠ idToClear) (timeouts g))
    (intervalTimeouts g).

(** [intervalTimeouts[id] = fakeSetTimeout(action, ms)]. *)
Definition arm `{ArraySort} (id f : nat) (ms : Z) (g : globals) : globals :=
  let '(timeout_id, g1) := fakeSetTimeout (action id f ms) ms g in
  mkGlobals (now g1) (timeoutCount g1) (intervalCount g1) (timeouts g1)
    (<[id := timeout_id]> (intervalTimeouts g1)).

Definition fakeSetInterval `{ArraySort} (f : nat) (ms : Z) (g : globals) :
    nat * globals :=
  let id := S (intervalCount g) in
  (id,
   arm id f ms
     (mkGlobals (now g) (timeoutCount g) id (timeouts g) (intervalTimeouts g))).

(** [fakeClearTimeout(intervalTimeouts[idToClear])]. *)
Definition fakeClearInterval (idToClear : nat) (g : globals) : globals :=
  fakeClearTimeout (intervalTimeouts g !! idToClear) g.

(** [callback()]. *)
Definition call `{ArraySort, Callbacks} (c : callback) (g : globals) : globals :=
  match c with
  | function f => body f g
  | action id f ms => arm id f ms (body f g)
  end.

(** The loop of [advanceClock].  It need not end; [fuel] bounds the number of
    its rounds, and [None] is a loop that has not ended within them.  The
    result has the timeouts taken from the array, in the order they were
    called. *)
Fixpoint run_due `{ArraySort, Callbacks} (fuel : nat) (advanceTo : Z)
    (g : globals) {struct fuel} : option (globals * list timeout) :=
  match timeouts g with
  | [] => Some (g, [])
  | t :: rest =>
      if bool_decide (t_strikeTime t ≤ advanceTo)%Z then
        match fuel with
        | 0 => None
        | S fuel' =>
            let g1 :=
              mkGlobals (t_strikeTime t) (timeoutCount g) (intervalCount g)
                rest (intervalTimeouts g) in
            match run_due fuel' advanceTo (call (t_callback t) g1) with
            | Some (g', called) => Some (g', t :: called)
            | None => None
            end
        end
      else Some (g, [])
  end.

Definition advanceClock `{ArraySort, Callbacks} (fuel : nat) (deltaMs : Z)
    (g : globals) : option (globals * list timeout) :=
  let advanceTo := (now g + deltaMs)%Z in
  match run_due fuel advanceTo g with
  | Some (g', called) =>
      Some (mkGlobals advanceTo (timeoutCount g') (intervalCount g')
              (timeouts g') (intervalTimeouts g'),
            called)
  | None => None
  end.

(** What the language says of [sort] with a comparison as this one: the
    result is in the order of the comparison and has the elements of the
    array.  The order among timeouts of the same time is left open. *)
Class SortLaws `{ArraySort} : Prop := {
  sort_sorted l : Sorted by_strikeTime (sort l);
  sort_permutation l : sort l ≡ₚ l
}.

(** A sort to run the module with: insertion, which keeps the order of
    timeouts of the same time. *)
Fixpoint insert (t : timeout) (l : list timeout) : list timeout :=
  match l with
  | [] => [t]
  | u :: l' =>
      if bool_decide (by_strikeTime t u) then t :: u :: l' else u :: insert t l'
  end.

Definition insertion_sort : ArraySort := foldr insert [].

(** Callbacks that leave the timers alone. *)
Definition quiet : Callbacks := λ _ g, g.


(** What holds of the variables between the calls of a test: the array is
    in the order of the times; the ids of the pending timeouts are distinct
    and were given out; an interval that has a pending timeout has one, the
    one that [intervalTimeouts] has for it. *)
Record invariant (g : globals) : Prop := mkInvariant {
  inv_sorted : StronglySorted by_strikeTime (timeouts g);
  inv_distinct : NoDup (t_id <$> timeouts g);
  inv_given : ∀ t, t ∈ timeouts g → 1 ≤ t_id t ≤ timeoutCount g;
  inv_intervals : ∀ i timeout_id,
    intervalTimeouts g !! i = Some timeout_id →
    1 ≤ i ≤ intervalCount g ∧ 1 ≤ timeout_id ≤ timeoutCount g;
  inv_actions : ∀ t i f ms,
    t ∈ timeouts g → t_callback t = action i f ms →
    intervalTimeouts g !! i = Some (t_id t)
}.

(** The states a test reaches by calls of the functions of the module. *)
Inductive reachable `{ArraySort, Callbacks} : globals → Prop :=
| reach_initial : reachable initial
| reach_resetTimeouts g :
    reachable g → reachable (resetTimeouts g)
| reach_fakeSetTimeout f ms g :
    reachable g → reachable (fakeSetTimeout (function f) ms g).2
| reach_fakeClearTimeout idToClear g :
    reachable g → reachable (fakeClearTimeout idToClear g)
| reach_fakeSetInterval f ms g :
    reachable g → reachable (fakeSetInterval f ms g).2
| reach_fakeClearInterval idToClear g :
    reachable g → reachable (fakeClearInterval idToClear g)
| reach_advanceClock fuel deltaMs g g' called :
    reachable g → advanceClock fuel deltaMs g = Some (g', called) →
    reachable g'.

(** The interval [i] has no pending timeout. *)
Definition idle (i : nat) (l : list timeout) : Prop :=
  ∀ t f ms, t ∈ l → t_callback t ≠ action i f ms.

(** The variables when the first timeout [t] was taken from the array, the
    rest of which is [rest], and [now] set to its time. *)
Definition taken (t : timeout) (rest : list timeout) (g : globals) : globals :=
  mkGlobals (t_strikeTime t) (timeoutCount g) (intervalCount g) rest
    (intervalTimeouts g).


(** The timeout is due at [advanceTo]. *)
Definition due (advanceTo : Z) (t : timeout) : Prop :=
  (t_strikeTime t ≤ advanceTo)%Z.

#[global] Instance due_dec advanceTo t : Decision (due advanceTo t).
Proof. unfold due. apply _. Defined.




(** A test: a timeout of the function 7 in 100 ms, an interval of the
    function 8 every 30 ms, a timeout of the function 9 in 60 ms. *)
Definition example : globals :=
  (@fakeSetTimeout insertion_sort (function 9) 60
     (@fakeSetInterval insertion_sort 8 30
        (@fakeSetTimeout insertion_sort (function 7) 100 initial).2).2).2.

(** The two timeouts of the test without the interval. *)
Definition example_functions : globals :=
  (@fakeSetTimeout insertion_sort (function 9) 60
     (@fakeSetTimeout insertion_sort (function 7) 100 initial).2).2.

(** An interval of the function 8 with the period 0. *)
Definition example_zero : globals :=
  (@fakeSetInterval insertion_sort 8 0 initial).2.

End FakeTimer.

(** * The outline view

    The functions of the outline view that compute: the text of an item and
    its highlighting, the nodes of the tree shown, the paths that are
    collapsed, and the outline node at the path of a node shown. *)
Module OutlineView.

Local Open Scope nat_scope.

(** The path of a node: the index among the roots, then the indexes among
    the children.  An index that is no index of the array reads
    [undefined], as one that is out of range here. *)
Definition NodePath : Type := list nat.

Inductive TokenKind : Type :=
| keyword | class_name | constructor_kind | method | param | string_kind
| whitespace | plain | type_kind.

Definition TOKEN_KIND_TO_CLASS_NAME_MAP (kind : TokenKind) : string :=
  match kind with
  | keyword => "syntax--keyword"
  | class_name => "syntax--entity syntax--name syntax--class"
  | constructor_kind => "syntax--entity syntax--name syntax--function"
  | method => "syntax--entity syntax--name syntax--function"
  | param => "syntax--variable"
  | string_kind => "syntax--string"
  | whitespace => ""
  | plain => ""
  | type_kind => "syntax--support syntax--type"
  end.

Record TextToken : Type := mkTextToken {
  token_kind : TokenKind;
  token_value : string
}.

(** The result of the search for an item.  [matchingCharacters] are
    positions in the text of the item. *)
Record SearchResult : Type := mkSearchResult {
  matches : bool;
  visible : bool;
  matchingCharacters : option (list Z)
}.

(** A node of the outline.  [tree_id] is the identity of the object, which
    the map of the search results is keyed by; the positions of the node are
    left out. *)
#[warnings="-register-all"] Inductive OutlineTree : Type :=
  mkOutlineTree (tree_id : nat) (icon : option string) (kind : option string)
    (tokenizedText : option (list TextToken)) (plainText : option string)
    (children : list OutlineTree).

Definition tree_id (t : OutlineTree) : nat :=
  match t with mkOutlineTree x _ _ _ _ _ => x end.
Definition icon (t : OutlineTree) : option string :=
  match t with mkOutlineTree _ x _ _ _ _ => x end.
Definition kind (t : OutlineTree) : option string :=
  match t with mkOutlineTree _ _ x _ _ _ => x end.
Definition tokenizedText (t : OutlineTree) : option (list TextToken) :=
  match t with mkOutlineTree _ _ _ x _ _ => x end.
Definition plainText (t : OutlineTree) : option string :=
  match t with mkOutlineTree _ _ _ _ x _ => x end.
Definition children (t : OutlineTree) : list OutlineTree :=
  match t with mkOutlineTree _ _ _ _ _ x => x end.

(** [OutlineForUi], by its [kind]. *)
Inductive OutlineForUi : Type :=
| empty_outline
| not_text_editor
| loading
| no_provider (grammar : string)
| provider_no_outline
| outline (outlineTrees : list OutlineTree).

(** What is rendered, as data.  [HighlightedText] has the positions that
    [matchIndexesToRanges] is called with. *)
Inductive content : Type :=
| HighlightedText (positions : list Z) (text : string)
| Text (text : string).

Inductive element : Type :=
| icon_span (className : string)
| Atomicon (type : string)
| token_span (className : string) (key : nat) (child : content)
| text_child (child : content)
| missing_text.

(** [matchingCharacters.map(el => el - offset)
      .filter(el => el >= 0 && el < token.value.length)]. *)
Definition positions_in_token (matching : list Z) (offset : Z) (token : TextToken) :
    list Z :=
  filter (λ el, (0 ≤ el)%Z ∧ (el < Z.of_nat (String.length (token_value token)))%Z)
    ((λ el, (el - offset)%Z) <$> matching).

Definition renderTextToken (token : TextToken) (index : nat)
    (searchResult : option SearchResult) (offset : Z) : element :=
  token_span (TOKEN_KIND_TO_CLASS_NAME_MAP (token_kind token)) index
    match searchResult ≫= matchingCharacters with
    | Some matching =>
        HighlightedText (positions_in_token matching offset token)
          (token_value token)
    | None => Text (token_value token)
    end.

(** [outline.tokenizedText.map((token, i) => ...)], with [offset] the sum of
    the lengths of the tokens before. *)
Fixpoint render_tokens (tokens : list TextToken) (i : nat)
    (searchResult : option SearchResult) (offset : Z) : list element :=
  match tokens with
  | [] => []
  | token :: rest =>
      renderTextToken token i searchResult offset
      :: render_tokens rest (S i) searchResult
           (offset + Z.of_nat (String.length (token_value token)))
  end.

(** The children [r] of the [span] that [renderItem] returns.
    [getTypeFromIconName] is of the icons. *)
Definition renderItem (getTypeFromIconName : string → option string)
    (outline : OutlineTree) (searchResult : option SearchResult) : list element :=
  match icon outline with
  | Some iconName =>
      match getTypeFromIconName iconName with
      | None => [icon_span ("icon icon-" +:+ iconName)]
      | Some correspondingAtomicon => [Atomicon correspondingAtomicon]
      end
  | None =>
      match kind outline with
      | Some k => [Atomicon k]
      | None => []
      end
  end
  ++
  match tokenizedText outline with
  | Some tokens => render_tokens tokens 0 searchResult 0
  | None =>
      match plainText outline with
      | Some text =>
          [text_child
             match searchResult ≫= matchingCharacters with
             | Some matching => HighlightedText matching text
             | None => Text text
             end]
      | None => [missing_text]
      end
  end.

(** A node of the tree that is shown. *)
#[warnings="-register-all"] Inductive TreeNode : Type :=
| LEAF (label : list element) (hidden : option bool)
| NESTED (label : list element) (nodes : list TreeNode) (hidden : option bool).

(** [searchResult && !searchResult.visible]. *)
Definition hidden_of (searchResult : option SearchResult) : option bool :=
  match searchResult with
  | Some r => Some (negb (visible r))
  | None => None
  end.

(** [_outlineTreeToNode]; [renderItem] is called without a search result. *)
Fixpoint _outlineTreeToNode (getTypeFromIconName : string → option string)
    (searchResults : gmap nat SearchResult) (outlineTree : OutlineTree) :
    TreeNode :=
  let searchResult := searchResults !! tree_id outlineTree in
  match outlineTree with
  | mkOutlineTree _ _ _ _ _ [] =>
      LEAF (renderItem getTypeFromIconName outlineTree None)
        (hidden_of searchResult)
  | mkOutlineTree _ _ _ _ _ (child :: rest) =>
      NESTED (renderItem getTypeFromIconName outlineTree None)
        (_outlineTreeToNode getTypeFromIconName searchResults <$> child :: rest)
        (hidden_of searchResult)
  end.

(** [_getNodes]: the memo is of this function of its key. *)
Definition _getNodes (getTypeFromIconName : string → option string)
    (searchResults : gmap nat SearchResult) (outlineTrees : list OutlineTree) :
    list TreeNode :=
  _outlineTreeToNode getTypeFromIconName searchResults <$> outlineTrees.

(** The loop of [selectNodeFromPath]: [node = node.children[path[i]]]. *)
Fixpoint descend (node : option OutlineTree) (path : NodePath) :
    completion (option OutlineTree) :=
  match path with
  | [] => normal node
  | i :: rest =>
      match node with
      | Some n => descend (children n !! i) rest
      | None => thrown TypeError
      end
  end.

Definition selectNodeFromPath (o : OutlineForUi) (path : NodePath) :
    completion (option OutlineTree) :=
  match o with
  | outline outlineTrees =>
      match path with
      | [] => normal None
      | i :: rest => descend (outlineTrees !! i) rest
      end
  | _ => thrown AssertionError
  end.

(** The node of the tree shown at a path. *)
Fixpoint node_at (nodes : list TreeNode) (path : NodePath) : option TreeNode :=
  match path with
  | [] => None
  | i :: rest =>
      match nodes !! i, rest with
      | Some n, [] => Some n
      | Some (NESTED _ below _), _ :: _ => node_at below rest
      | _, _ => None
      end
  end.

(** The outline node at a path, when the path is one of the outline. *)
Fixpoint tree_at (trees : list OutlineTree) (path : NodePath) :
    option OutlineTree :=
  match path with
  | [] => None
  | i :: rest =>
      match trees !! i, rest with
      | Some t, [] => Some t
      | Some t, _ :: _ => tree_at (children t) rest
      | None, _ => None
      end
  end.

(** The labels of a node and of the nodes below it. *)
Fixpoint labels (n : TreeNode) : list (list element) :=
  match n with
  | LEAF label _ => [label]
  | NESTED label below _ => label :: mjoin (labels <$> below)
  end.

Definition highlighted (e : element) : Prop :=
  match e with
  | token_span _ _ (HighlightedText _ _) | text_child (HighlightedText _ _) => True
  | _ => False
  end.



(** [arrayEqual] of the commons, for paths. *)
Class ArrayEqual : Type := arrayEqual : NodePath → NodePath → bool.

(** It compares the elements with [===]. *)
Class ArrayEqualLaws `{ArrayEqual} : Prop :=
  arrayEqual_true a b : arrayEqual a b = true ↔ a = b.

Definition path_eqb : ArrayEqual := λ a b, bool_decide (a = b).

(** The state of the core of the view. *)
Record CoreState : Type := mkCoreState {
  collapsedPaths : list NodePath;
  searchResults : gmap nat SearchResult
}.

(** The state of the constructor. *)
Definition initial_state : CoreState := mkCoreState [] ∅.

(** The function that [_handleCollapse] gives to [setState].  It reads
    [this.state], not the state it is given; the result is the new
    [collapsedPaths], or [undefined]. *)
Definition collapse_update `{ArrayEqual} (this_state : CoreState)
    (nodePath : NodePath) (prevState : CoreState) : option (list NodePath) :=
  match List.find (λ path, arrayEqual path nodePath) (collapsedPaths this_state) with
  | Some existing => None
  | None => Some (collapsedPaths this_state ++ [nodePath])
  end.

(** The function that [_handleExpand] gives to [setState]. *)
Definition expand_update `{ArrayEqual} (nodePath : NodePath)
    (prevState : CoreState) : option (list NodePath) :=
  Some (List.filter (λ path, negb (arrayEqual path nodePath))
          (collapsedPaths prevState)).

(** [setState] merges what the function returns. *)
Definition merge (update : option (list NodePath)) (s : CoreState) : CoreState :=
  match update with
  | Some paths => mkCoreState paths (searchResults s)
  | None => s
  end.

(** The handlers when no other update is pending: [this.state] is the state
    that the function is given. *)
Definition _handleCollapse `{ArrayEqual} (nodePath : NodePath) (s : CoreState) :
    CoreState :=
  merge (collapse_update s nodePath s) s.

Definition _handleExpand `{ArrayEqual} (nodePath : NodePath) (s : CoreState) :
    CoreState :=
  merge (expand_update nodePath s) s.

Inductive click : Type :=
| collapse (nodePath : NodePath)
| expand (nodePath : NodePath).

Definition handle `{ArrayEqual} (s : CoreState) (c : click) : CoreState :=
  match c with
  | collapse nodePath => _handleCollapse nodePath s
  | expand nodePath => _handleExpand nodePath s
  end.

(** Whether a path is collapsed after the clicks: by the last click on it. *)
Fixpoint collapsed_after (clicks : list click) (p : NodePath) (before : bool) :
    bool :=
  match clicks with
  | [] => before
  | collapse q :: rest =>
      collapsed_after rest p (if bool_decide (q = p) then true else before)
  | expand q :: rest =>
      collapsed_after rest p (if bool_decide (q = p) then false else before)
  end.

(** An outline for examples: a class with two methods, and a function. *)
Definition example_trees : list OutlineTree :=
  [mkOutlineTree 1 None (Some "class")
     (Some [mkTextToken keyword "class"; mkTextToken whitespace " ";
            mkTextToken class_name "Foo"]) None
     [mkOutlineTree 2 None (Some "method") None (Some "bar") [];
      mkOutlineTree 3 None (Some "method") None (Some "baz") []];
   mkOutlineTree 4 None (Some "function") None (Some "main") []].

Definition no_icons : string → option string := λ _, None.

End OutlineView.

(** ** The callback, case by case *)

Lemma strict_eq_true x literal :
  strict_eq x literal = true ↔ x = Some (JString literal).
Proof.
  unfold strict_eq. split.
  - destruct x as [[]|]; try discriminate.
    intros H. apply String.eqb_eq in H. by subst.
  - intros ->. apply String.eqb_refl.
Qed.

Lemma strict_eq_false x literal :
  strict_eq x literal = false ↔ x ≠ Some (JString literal).
Proof.
  rewrite <- strict_eq_true. destruct (strict_eq x literal); split; congruence.
Qed.

Lemma Map_key_primitive fresh v id :
  primitive_key v = Some id → Map_key fresh v = id.
Proof. unfold Map_key. by intros ->. Qed.

Lemma primitive_key_not_object v r : primitive_key v ≠ Some (k_object r).
Proof. destruct v as [[]|]; simpl; congruence. Qed.

Lemma primitive_key_stable v id :
  primitive_key v = Some id → ∀ r, id ≠ k_object r.
Proof. intros Hid r ->. by apply primitive_key_not_object in Hid. Qed.

(** Goes through the members of an explicit list, [H : x ∈ [a; b; ...]]. *)
Tactic Notation "each_member" ident(H) "by" tactic3(tac) :=
  repeat (apply elem_of_cons in H as [->|H]; [tac|]);
  by apply elem_of_nil in H.

(** What a call of the callback on an object does, read off the body. *)
Lemma handler_object transport members st :
  handler transport (JSON_text (JObject members)) st =
    let event := member "event" members in
    let tunnelId := member "tunnelId" members in
    let id := Map_key (constructed st) tunnelId in
    if strict_eq event "proxyCreated" then
      let sm := mkSocketManager (constructed st) tunnelId
                  (member "remotePort" members) transport in
      (fulfilled,
       mkState (<[id := sm]> (idToSocketManager st)) (S (constructed st)),
       [Log "creating connection manager"; New sm])
    else if strict_eq event "connection" || strict_eq event "data" then
      match idToSocketManager st !! id with
      | Some sm => (fulfilled, st, [Send sm (JObject members)])
      | None => (rejected AssertionError, st, [])
      end
    else if strict_eq event "proxyClosed" then
      match idToSocketManager st !! id with
      | Some sm => (fulfilled, st, [Close sm])
      | None => (rejected AssertionError, st, [])
      end
    else (fulfilled, st, []).
Proof.
  unfold handler, async, on_message, bind, JSON_parse, read, identity,
    Map_get, ret; cbn [field_name].
  destruct (strict_eq (member "event" members) "proxyCreated"); [reflexivity|].
  destruct (strict_eq (member "event" members) "connection"
            || strict_eq (member "event" members) "data").
  { unfold invariant. by destruct (idToSocketManager st !! _). }
  destruct (strict_eq (member "event" members) "proxyClosed"); [|reflexivity].
  unfold invariant. by destruct (idToSocketManager st !! _).
Qed.

Lemma handler_not_JSON transport st :
  handler transport not_JSON st = (rejected SyntaxError, st, []).
Proof. reflexivity. Qed.

Lemma handler_null transport st :
  handler transport (JSON_text JNull) st = (rejected TypeError, st, []).
Proof. reflexivity. Qed.

(** A parsed value that is neither an object nor [null] has no [event]. *)
Lemma handler_other transport j st :
  j ≠ JNull → (∀ members, j ≠ JObject members) →
  handler transport (JSON_text j) st = (fulfilled, st, []).
Proof. destruct j; intros Hn Ho; try reflexivity; [by destruct Hn | by destruct (Ho members)]. Qed.

Lemma handler_proxyCreated transport members st :
  member "event" members = Some (JString "proxyCreated") →
  handler transport (JSON_text (JObject members)) st =
    let tunnelId := member "tunnelId" members in
    let sm := mkSocketManager (constructed st) tunnelId
                (member "remotePort" members) transport in
    (fulfilled,
     mkState (<[Map_key (constructed st) tunnelId := sm]> (idToSocketManager st))
       (S (constructed st)),
     [Log "creating connection manager"; New sm]).
Proof. intros He. rewrite handler_object, He. reflexivity. Qed.

Lemma handler_forward transport members st :
  member "event" members = Some (JString "connection")
  ∨ member "event" members = Some (JString "data") →
  handler transport (JSON_text (JObject members)) st =
    match idToSocketManager st !! Map_key (constructed st) (member "tunnelId" members) with
    | Some sm => (fulfilled, st, [Send sm (JObject members)])
    | None => (rejected AssertionError, st, [])
    end.
Proof. intros [He|He]; rewrite handler_object, He; reflexivity. Qed.

Lemma handler_proxyClosed transport members st :
  member "event" members = Some (JString "proxyClosed") →
  handler transport (JSON_text (JObject members)) st =
    match idToSocketManager st !! Map_key (constructed st) (member "tunnelId" members) with
    | Some sm => (fulfilled, st, [Close sm])
    | None => (rejected AssertionError, st, [])
    end.
Proof. intros He. rewrite handler_object, He. reflexivity. Qed.

Lemma handler_unrecognized transport members st :
  (∀ name, name ∈ ["proxyCreated"; "connection"; "data"; "proxyClosed"] →
     member "event" members ≠ Some (JString name)) →
  handler transport (JSON_text (JObject members)) st = (fulfilled, st, []).
Proof.
  intros Hout. rewrite handler_object. cbv zeta.
  rewrite !(proj2 (strict_eq_false _ _)); [reflexivity| |  | |];
    apply Hout; set_solver.
Qed.

(** ** Sequences of arrivals *)

Lemma step_connection transport st :
  step (connection transport) st = (st, [Log "connection made!"]).
Proof. reflexivity. Qed.

Lemma run_cons i rest st :
  run (i :: rest) st =
    ((run rest (step i st).1).1, (step i st).2 ++ (run rest (step i st).1).2).
Proof.
  simpl. destruct (step i st) as [st1 out1]. simpl.
  by destruct (run rest st1).
Qed.

Lemma run_app before after st :
  run (before ++ after) st =
    ((run after (run before st).1).1,
     (run before st).2 ++ (run after (run before st).1).2).
Proof.
  revert st. induction before as [|i before IH]; intros st.
  - simpl. by destruct (run after st).
  - rewrite <- app_comm_cons, !run_cons, IH. simpl. by rewrite app_assoc.
Qed.

Lemma sent_to_app r out1 out2 :
  sent_to r (out1 ++ out2) = sent_to r out1 ++ sent_to r out2.
Proof.
  induction out1 as [|e out1 IH]; [reflexivity|].
  destruct e; simpl; try apply IH.
  case_decide; simpl; by rewrite IH.
Qed.

(** A step changes the state only by a [proxyCreated]. *)
Lemma step_state i st :
  (step i st).1 = st
  ∨ ∃ transport members,
      i = message_on transport (JSON_text (JObject members))
      ∧ member "event" members = Some (JString "proxyCreated")
      ∧ (step i st).1 =
          mkState
            (<[Map_key (constructed st) (member "tunnelId" members) :=
                 mkSocketManager (constructed st) (member "tunnelId" members)
                   (member "remotePort" members) transport]>
               (idToSocketManager st))
            (S (constructed st)).
Proof.
  destruct i as [transport|transport [|j]]; [by left| by left|].
  destruct j; try by left.
  unfold step. rewrite handler_object. cbv zeta.
  destruct (strict_eq (member "event" members) "proxyCreated") eqn:He.
  - right. exists transport, members. apply strict_eq_true in He. by rewrite He.
  - left. repeat (case_match; simplify_eq/=); done.
Qed.

Lemma launch_well_formed : well_formed launch.1.
Proof. repeat split; simpl; intros; simplify_map_eq. Qed.

Lemma step_well_formed i st : well_formed st → well_formed (step i st).1.
Proof.
  intros (Hlt & Hobj & Hinj).
  destruct (step_state i st) as [->|(transport & members & _ & _ & ->)]; [done|].
  set (id := Map_key _ _). set (sm := mkSocketManager _ _ _ _).
  repeat split; simpl.
  - intros k sm' Hk. destruct (decide (id = k)) as [<-|Hne].
    + rewrite lookup_insert_eq in Hk. simplify_eq. simpl. lia.
    + rewrite lookup_insert_ne in Hk by done. apply Hlt in Hk. lia.
  - intros r sm' Hk. destruct (decide (id = k_object r)) as [Heq|Hne].
    + unfold id, Map_key in Heq. destruct (primitive_key _) eqn:Hp.
      * subst. by apply primitive_key_not_object in Hp.
      * simplify_eq. lia.
    + rewrite lookup_insert_ne in Hk by done. apply Hobj in Hk. lia.
  - intros k1 k2 sm1 sm2 H1 H2 Href.
    destruct (decide (id = k1)) as [<-|Hne1], (decide (id = k2)) as [<-|Hne2];
      [done| | |].
    + rewrite lookup_insert_eq in H1. rewrite lookup_insert_ne in H2 by done.
      simplify_eq. apply Hlt in H2. simpl in Href. lia.
    + rewrite lookup_insert_ne in H1 by done. rewrite lookup_insert_eq in H2.
      simplify_eq. apply Hlt in H1. simpl in Href. lia.
    + rewrite lookup_insert_ne in H1, H2 by done. eauto.
Qed.

Lemma run_well_formed arrivals st : well_formed st → well_formed (run arrivals st).1.
Proof.
  revert st. induction arrivals as [|i rest IH]; intros st Hwf; [done|].
  rewrite run_cons. simpl. by apply IH, step_well_formed.
Qed.

(** In a state the launcher reaches, the object of a new message is no key:
    a lookup of it finds nothing. *)
Lemma object_key_fresh st v :
  well_formed st → primitive_key v = None →
  idToSocketManager st !! Map_key (constructed st) v = None.
Proof.
  intros (_ & Hobj & _) Hp. unfold Map_key. rewrite Hp.
  destruct (idToSocketManager st !! _) as [sm|] eqn:Hk; [|done].
  apply Hobj in Hk. lia.
Qed.

Lemma Map_key_is fresh v id :
  (∀ r, id ≠ k_object r) →
  Map_key fresh v = id ↔ primitive_key v = Some id.
Proof.
  intros Hprim. unfold Map_key. destruct (primitive_key v) as [k|].
  - split; congruence.
  - split; [intros <-; by destruct (Hprim fresh) | done].
Qed.

(** Only a [proxyCreated] for [id] changes the entry of [id]. *)
Lemma step_lookup id i st :
  (∀ r, id ≠ k_object r) → creates id i = false →
  idToSocketManager (step i st).1 !! id = idToSocketManager st !! id.
Proof.
  intros Hprim Hcr.
  destruct (step_state i st) as [->|(transport & members & -> & He & ->)]; [done|].
  simpl in *. apply lookup_insert_ne. rewrite Map_key_is by done.
  apply strict_eq_true in He. rewrite He in Hcr. simpl in Hcr.
  by apply bool_decide_eq_false in Hcr.
Qed.

Lemma run_lookup id arrivals st :
  (∀ r, id ≠ k_object r) → (∀ i, i ∈ arrivals → creates id i = false) →
  idToSocketManager (run arrivals st).1 !! id = idToSocketManager st !! id.
Proof.
  intros Hprim. revert st. induction arrivals as [|i rest IH]; intros st Hcr; [done|].
  rewrite run_cons. simpl. rewrite IH by (intros; apply Hcr; set_solver).
  apply step_lookup; [done|]. apply Hcr. set_solver.
Qed.

Lemma step_registered id r i st :
  (∀ r', id ≠ k_object r') → creates id i = false →
  registered id r st → registered id r (step i st).1.
Proof.
  intros Hprim Hcr Hreg.
  pose proof (step_lookup id i st Hprim Hcr) as Hkeep.
  destruct (step_state i st) as [->|(transport & members & -> & He & Hst)]; [done|].
  destruct Hreg as ((sm & Hsm & Hr) & Hlt & Huniq).
  rewrite Hst in *. unfold registered. simpl in *. split_and!.
  - exists sm. by rewrite Hkeep.
  - lia.
  - intros k sm' Hk Href.
    destruct (decide (Map_key (constructed st) (member "tunnelId" members) = k))
      as [<-|Hne].
    + rewrite lookup_insert_eq in Hk. simplify_eq. simpl in *. lia.
    + rewrite lookup_insert_ne in Hk by done. eauto.
Qed.

(** What one arrival sends to the manager registered under [id]. *)
Lemma step_sent_to id r i st :
  (∀ r', id ≠ k_object r') → registered id r st →
  sent_to r (step i st).2 = option_list (forwarded id i).
Proof.
  intros Hprim ((sm & Hsm & Hr) & Hlt & Huniq).
  destruct i as [transport|transport [|j]]; [done|done|].
  destruct j; try done.
  unfold step, forwarded. rewrite handler_object. cbv zeta.
  destruct (strict_eq (member "event" members) "proxyCreated") eqn:Hc.
  { apply strict_eq_true in Hc. by rewrite Hc. }
  destruct (strict_eq (member "event" members) "connection"
            || strict_eq (member "event" members) "data"); simpl.
  - destruct (decide (primitive_key (member "tunnelId" members) = Some id))
      as [Hid|Hid].
    + rewrite (bool_decide_eq_true_2 _ Hid).
      rewrite (Map_key_primitive _ _ _ Hid), Hsm.
      cbn [snd sent_to option_list]. by rewrite decide_True.
    + rewrite (bool_decide_eq_false_2 _ Hid).
      destruct (idToSocketManager st !! Map_key _ _) as [sm'|] eqn:Hk; [|done].
      cbn [snd sent_to option_list]. rewrite decide_False; [done|].
      intros Href. destruct Hid. eapply Map_key_is; eauto.
  - destruct (strict_eq (member "event" members) "proxyClosed"); [|done].
    by destruct (idToSocketManager st !! Map_key _ _).
Qed.

Lemma run_sent_to id r arrivals st :
  (∀ r', id ≠ k_object r') → (∀ i, i ∈ arrivals → creates id i = false) →
  registered id r st →
  sent_to r (run arrivals st).2 = omap (forwarded id) arrivals.
Proof.
  intros Hprim. revert st. induction arrivals as [|i rest IH]; intros st Hcr Hreg;
    [done|].
  rewrite run_cons. cbn [snd]. rewrite sent_to_app.
  rewrite (step_sent_to id r i st Hprim Hreg).
  rewrite IH.
  - simpl. by destruct (forwarded id i).
  - intros; apply Hcr; set_solver.
  - apply step_registered; [done| |done]. apply Hcr; set_solver.
Qed.

(** A new manager is registered under its tunnel id. *)
Lemma created_registered transport members id st :
  well_formed st →
  member "event" members = Some (JString "proxyCreated") →
  primitive_key (member "tunnelId" members) = Some id →
  registered id (constructed st)
    (handler transport (JSON_text (JObject members)) st).1.2.
Proof.
  intros (Hlt & _ & _) He Hid. rewrite handler_proxyCreated by done.
  cbv zeta. rewrite (Map_key_primitive _ _ _ Hid).
  unfold registered. simpl. split_and!.
  - eexists. by rewrite lookup_insert_eq.
  - lia.
  - intros k sm Hk Href. destruct (decide (id = k)) as [|Hne]; [done|].
    rewrite lookup_insert_ne in Hk by done. apply Hlt in Hk. lia.
Qed.

(** A [connection] or [data] for a tunnel id that has an entry is sent to
    the manager of the entry, also after arrivals that do not create the
    id again. *)
Lemma forward_after id sm between transport members st :
  (∀ r, id ≠ k_object r) →
  idToSocketManager st !! id = Some sm →
  (∀ i, i ∈ between → creates id i = false) →
  member "event" members = Some (JString "connection")
  ∨ member "event" members = Some (JString "data") →
  primitive_key (member "tunnelId" members) = Some id →
  handler transport (JSON_text (JObject members)) (run between st).1 =
    (fulfilled, (run between st).1, [Send sm (JObject members)]).
Proof.
  intros Hprim Hsm Hcr He Hid. rewrite handler_forward by done.
  by rewrite (Map_key_primitive _ _ _ Hid), run_lookup, Hsm.
Qed.

Lemma handler_unknown_tunnel transport members st :
  member "event" members ∈
    [Some (JString "connection"); Some (JString "data");
     Some (JString "proxyClosed")] →
  idToSocketManager st !! Map_key (constructed st) (member "tunnelId" members)
    = None →
  handler transport (JSON_text (JObject members)) st =
    (rejected AssertionError, st, []).
Proof.
  intros He Hk.
  apply elem_of_cons in He as [He|He]; [|apply elem_of_cons in He as [He|He]];
    [| |apply list_elem_of_singleton in He].
  - rewrite handler_forward, Hk; auto.
  - rewrite handler_forward, Hk; auto.
  - rewrite handler_proxyClosed, Hk; auto.
Qed.

(** A call whose promise is rejected did nothing. *)
Lemma rejected_unchanged transport data st e :
  (handler transport data st).1.1 = rejected e →
  handler transport data st = (rejected e, st, []).
Proof.
  destruct data as [|j]; [by intros [= <-]|].
  destruct j; try discriminate; [by intros [= <-]|].
  rewrite handler_object. cbv zeta.
  repeat (case_match; try discriminate); by intros [= <-].
Qed.

(** ** The scenario *)

Lemma state_t1_reached :
  (run [connection 0; message_on 0 (JSON_text (JObject (proxyCreated_t1 8080)))]
     launch.1).1 = state_t1.
Proof. reflexivity. Qed.

(** ** Properties of the routing *)

(** C9: a payload that [JSON.parse] rejects makes the callback fail with the
    [SyntaxError] whatever the state is: the map and the count of managers
    are as before, and nothing is logged, constructed, sent or closed. *)
Theorem parse_failure_changes_nothing transport st :
  handler transport not_JSON st = (rejected SyntaxError, st, [])
  ∧ ∀ st', (handler transport not_JSON st').1.1 = (handler transport not_JSON st).1.1.
Proof. split; reflexivity. Qed.

(** C8: a message (an object) whose [event] is none of [proxyCreated],
    [connection], [data] and [proxyClosed] is handled without failure and
    without effect: the promise is fulfilled, the state is as before, and
    nothing is constructed, sent or closed. *)
Theorem unrecognized_event_ignored transport members st :
  (∀ name, name ∈ ["proxyCreated"; "connection"; "data"; "proxyClosed"] →
     member "event" members ≠ Some (JString name)) →
  handler transport (JSON_text (JObject members)) st = (fulfilled, st, []).
Proof. apply handler_unrecognized. Qed.

Lemma unrecognized_event_ignored_witness :
  handler 0 (JSON_text (JObject ping_t1)) state_t1 = (fulfilled, state_t1, []).
Proof.
  apply unrecognized_event_ignored.
  intros name Hin. each_member Hin by discriminate.
Defined.

(** C6: after any arrivals since [launch] among which there is no
    [proxyCreated] for a tunnel id, a [connection], [data] or [proxyClosed]
    for that id fails the [invariant] (the promise is rejected with the
    [AssertionError]); the state is as before and nothing is constructed,
    sent or closed. *)
Theorem never_created_rejected arrivals transport members :
  (∀ id, primitive_key (member "tunnelId" members) = Some id →
     ∀ i, i ∈ arrivals → creates id i = false) →
  member "event" members ∈
    [Some (JString "connection"); Some (JString "data");
     Some (JString "proxyClosed")] →
  let st := (run arrivals launch.1).1 in
  handler transport (JSON_text (JObject members)) st =
    (rejected AssertionError, st, []).
Proof.
  intros Hnever He st. apply handler_unknown_tunnel; [done|].
  destruct (primitive_key (member "tunnelId" members)) as [id|] eqn:Hid.
  - rewrite (Map_key_primitive _ _ _ Hid). unfold st.
    rewrite run_lookup; [done| |by apply Hnever].
    by apply (primitive_key_stable (member "tunnelId" members)).
  - apply object_key_fresh; [|done].
    apply run_well_formed, launch_well_formed.
Qed.

Lemma never_created_rejected_witness :
  let arrivals :=
    [connection 0; message_on 0 (JSON_text (JObject proxyCreated_t2))] in
  handler 0 (JSON_text (JObject data_t1)) (run arrivals launch.1).1 =
    (rejected AssertionError, (run arrivals launch.1).1, []).
Proof.
  intros arrivals. apply (never_created_rejected arrivals 0 data_t1).
  - intros id [= <-] i Hin. each_member Hin by reflexivity.
  - apply list_elem_of_further, list_elem_of_here.
Defined.

(** C10: a [proxyCreated] is not validated.  Whatever [remotePort] is, and
    also when the message has none, a manager is constructed with the
    [tunnelId] and the [remotePort] read from the message ([undefined] for a
    missing one) and the transport, and is put in the map under the id. *)
Theorem proxyCreated_not_validated transport members st :
  member "event" members = Some (JString "proxyCreated") →
  ∃ sm st',
    handler transport (JSON_text (JObject members)) st =
      (fulfilled, st', [Log "creating connection manager"; New sm])
    ∧ sm_tunnelId sm = member "tunnelId" members
    ∧ sm_remotePort sm = member "remotePort" members
    ∧ sm_transport sm = transport
    ∧ idToSocketManager st'
        !! Map_key (constructed st) (member "tunnelId" members) = Some sm
    ∧ (member "remotePort" members = undefined → sm_remotePort sm = undefined).
Proof.
  intros He. rewrite handler_proxyCreated by done. cbv zeta.
  eexists _, _. split; [reflexivity|]. simpl.
  split_and!; try done. by rewrite lookup_insert_eq.
Qed.

Lemma proxyCreated_not_validated_witness :
  member "remotePort" proxyCreated_no_port = undefined
  ∧ ∃ sm st',
      handler 0 (JSON_text (JObject proxyCreated_no_port)) launch.1 =
        (fulfilled, st', [Log "creating connection manager"; New sm])
      ∧ sm_remotePort sm = undefined
      ∧ idToSocketManager st' !! k_string "t1" = Some sm.
Proof.
  split; [reflexivity|].
  destruct (proxyCreated_not_validated 0 proxyCreated_no_port launch.1 eq_refl)
    as (sm & st' & Hrun & _ & _ & _ & Hin & Hport).
  exists sm, st'. split; [exact Hrun|]. split; [exact (Hport eq_refl)|exact Hin].
Defined.

(** C1, as the launcher has it: where a tunnel id has an entry, a
    [proxyClosed] for the id calls [close] of the manager of the entry and
    leaves the state, and with it the entry, as it was; a later [data] for
    the id (after any arrivals that do not create the id again) finds that
    manager and is sent to it. *)
Theorem proxyClosed_closes_and_keeps_entry id sm transport members st :
  member "event" members = Some (JString "proxyClosed") →
  primitive_key (member "tunnelId" members) = Some id →
  idToSocketManager st !! id = Some sm →
  handler transport (JSON_text (JObject members)) st = (fulfilled, st, [Close sm])
  ∧ ∀ between transport' members',
      (∀ i, i ∈ between → creates id i = false) →
      member "event" members' = Some (JString "data") →
      primitive_key (member "tunnelId" members') = Some id →
      let st' := (handler transport (JSON_text (JObject members)) st).1.2 in
      handler transport' (JSON_text (JObject members')) (run between st').1 =
        (fulfilled, (run between st').1, [Send sm (JObject members')]).
Proof.
  intros He Hid Hsm.
  assert (handler transport (JSON_text (JObject members)) st
          = (fulfilled, st, [Close sm])) as Hrun.
  { rewrite handler_proxyClosed by done.
    by rewrite (Map_key_primitive _ _ _ Hid), Hsm. }
  split; [done|]. intros between transport' members' Hcr He' Hid'.
  rewrite Hrun. cbn [fst snd]. apply (forward_after id); auto.
  by apply (primitive_key_stable (member "tunnelId" members)).
Qed.

Lemma proxyClosed_closes_and_keeps_entry_witness :
  handler 0 (JSON_text (JObject proxyClosed_t1)) state_t1 =
    (fulfilled, state_t1, [Close (manager_t1 0 8080 0)])
  ∧ handler 0 (JSON_text (JObject data_t1))
      (run [connection 1] state_t1).1 =
      (fulfilled, state_t1, [Send (manager_t1 0 8080 0) (JObject data_t1)]).
Proof.
  destruct (proxyClosed_closes_and_keeps_entry (k_string "t1")
              (manager_t1 0 8080 0) 0 proxyClosed_t1 state_t1
              eq_refl eq_refl eq_refl) as [Hclose Hlater].
  split; [exact Hclose|].
  refine (Hlater [connection 1] 0 data_t1 _ eq_refl eq_refl).
  intros i Hin. each_member Hin by reflexivity.
Defined.

(** C1 as stated fails: after [launch], a connection and the creation of
    tunnel [t1], a [proxyClosed] for [t1] closes the manager but the entry
    of [t1] stays, and the [data] for [t1] that follows is not rejected: it
    is sent to the closed manager. *)
Lemma proxyClosed_keeps_entry_counterexample :
  let closed := (handler 0 (JSON_text (JObject proxyClosed_t1)) state_t1) in
  closed.2 = [Close (manager_t1 0 8080 0)]
  ∧ idToSocketManager closed.1.2 !! k_string "t1" = Some (manager_t1 0 8080 0)
  ∧ idToSocketManager closed.1.2 !! k_string "t1" ≠ None
  ∧ handler 0 (JSON_text (JObject data_t1)) closed.1.2 =
      (fulfilled, closed.1.2, [Send (manager_t1 0 8080 0) (JObject data_t1)])
  ∧ handler 0 (JSON_text (JObject data_t1)) closed.1.2 ≠
      (rejected AssertionError, closed.1.2, []).
Proof. split_and!; try reflexivity; discriminate. Qed.

(** C2, as the launcher has it: the map is made once, by [launch], and is
    empty then; [onConnection] makes no map and leaves the state as it is;
    the callbacks of all connections use the one map, so that a tunnel id
    created by a [proxyCreated] on one transport is found by a message on
    any other transport: a [data] for the id that arrives there is sent to
    the manager constructed with the first transport. *)
Theorem one_map_for_all_connections id transport1 transport2 created later st :
  member "event" created = Some (JString "proxyCreated") →
  primitive_key (member "tunnelId" created) = Some id →
  member "event" later = Some (JString "data") →
  primitive_key (member "tunnelId" later) = Some id →
  idToSocketManager launch.1 = ∅
  ∧ onConnection transport2 st = (normal tt, st, [Log "connection made!"])
  ∧ let sm := mkSocketManager (constructed st) (member "tunnelId" created)
                (member "remotePort" created) transport1 in
    let st1 := (handler transport1 (JSON_text (JObject created)) st).1.2 in
    let st2 := (run [connection transport2] st1).1 in
    idToSocketManager st2 !! id = Some sm
    ∧ handler transport2 (JSON_text (JObject later)) st2 =
        (fulfilled, st2, [Send sm (JObject later)]).
Proof.
  intros He Hid He' Hid'. split_and!; [done..|].
  intros sm st1 st2.
  assert (idToSocketManager st1 !! id = Some sm) as Hsm.
  { unfold st1. rewrite handler_proxyCreated by done. cbv zeta.
    rewrite (Map_key_primitive _ _ _ Hid). simpl. by rewrite lookup_insert_eq. }
  split; [done|].
  apply (forward_after id sm [connection transport2]); auto.
  - by apply (primitive_key_stable (member "tunnelId" created)).
  - intros i Hin. each_member Hin by reflexivity.
Qed.

Lemma one_map_for_all_connections_witness :
  let st1 := (handler 0 (JSON_text (JObject (proxyCreated_t1 8080))) launch.1).1.2 in
  let st2 := (run [connection 1] st1).1 in
  handler 1 (JSON_text (JObject data_t1)) st2 =
    (fulfilled, st2, [Send (manager_t1 0 8080 0) (JObject data_t1)]).
Proof.
  exact (proj2 (proj2 (proj2
    (one_map_for_all_connections (k_string "t1") 0 1 (proxyCreated_t1 8080)
       data_t1 launch.1 eq_refl eq_refl eq_refl eq_refl)))).
Defined.

(** C2 as stated fails: tunnel [t1] is created on transport 0; the
    connection of transport 1 does not start from an empty map (the entry
    of [t1] is there), and a [data] for [t1] arriving on transport 1 is sent
    to the manager of transport 0. *)
Lemma map_not_per_connection_counterexample :
  let st1 :=
    (run [connection 0; message_on 0 (JSON_text (JObject (proxyCreated_t1 8080)))]
       launch.1).1 in
  let st2 := (onConnection 1 st1).1.2 in
  idToSocketManager st2 ≠ ∅
  ∧ idToSocketManager st2 !! k_string "t1" = Some (manager_t1 0 8080 0)
  ∧ sm_transport (manager_t1 0 8080 0) = 0
  ∧ handler 1 (JSON_text (JObject data_t1)) st2 =
      (fulfilled, st2, [Send (manager_t1 0 8080 0) (JObject data_t1)]).
Proof.
  split_and!; try reflexivity.
  intros Hempty. apply (f_equal (λ m, m !! k_string "t1")) in Hempty.
  discriminate Hempty.
Qed.

(** C3, as the launcher has it: a failure of a message (a payload that does
    not parse; a [connection], [data] or [proxyClosed] for an id without
    entry) is not caught in the callback: it rejects the promise that the
    [async] callback returns, and nothing is logged.  Nothing is thrown to
    the subscription; the state is as before and nothing is constructed,
    sent or closed, so that all later arrivals are handled as if the failing
    message had not arrived. *)
Theorem failure_rejects_and_changes_nothing transport data e st :
  fails st data e →
  handler transport data st = (rejected e, st, [])
  ∧ ∀ rest, run (message_on transport data :: rest) st = run rest st.
Proof.
  intros Hfail.
  assert (handler transport data st = (rejected e, st, [])) as Hrun.
  { destruct Hfail; [reflexivity|]. by apply handler_unknown_tunnel. }
  split; [done|]. intros rest. rewrite run_cons. unfold step. rewrite Hrun.
  simpl. by destruct (run rest st).
Qed.

Lemma failure_rejects_and_changes_nothing_witness :
  handler 0 (JSON_text (JObject data_t2)) state_t1 =
    (rejected AssertionError, state_t1, [])
  ∧ run [message_on 0 (JSON_text (JObject data_t2));
         message_on 0 (JSON_text (JObject data_t1))] state_t1 =
    run [message_on 0 (JSON_text (JObject data_t1))] state_t1.
Proof.
  assert (fails state_t1 (JSON_text (JObject data_t2)) AssertionError) as Hfail.
  { apply fails_unknown_tunnel; [|reflexivity].
    apply list_elem_of_further, list_elem_of_here. }
  destruct (failure_rejects_and_changes_nothing 0 _ _ _ Hfail) as [Hrun Hrest].
  split; [exact Hrun|apply Hrest].
Defined.

(** C3 as stated fails: the callback has no handler for its failures.  A
    payload that does not parse, and a [data] for the unknown tunnel [t2],
    leave the promise rejected, and no effect of the call reports them. *)
Lemma failure_not_caught_counterexample :
  handler 0 not_JSON state_t1 = (rejected SyntaxError, state_t1, [])
  ∧ handler 0 (JSON_text (JObject data_t2)) state_t1 =
      (rejected AssertionError, state_t1, [])
  ∧ (handler 0 not_JSON state_t1).1.1 ≠ fulfilled
  ∧ (handler 0 (JSON_text (JObject data_t2)) state_t1).1.1 ≠ fulfilled
  ∧ ¬ (∃ e, e ∈ (handler 0 not_JSON state_t1).2 ∧ reports e = true)
  ∧ ¬ (∃ e, e ∈ (handler 0 (JSON_text (JObject data_t2)) state_t1).2
            ∧ reports e = true).
Proof.
  split_and!; try reflexivity; try discriminate.
  - intros (e & Hin & _). by apply elem_of_nil in Hin.
  - intros (e & Hin & _). by apply elem_of_nil in Hin.
Qed.

(** C5: in every state, a [proxyCreated] constructs a manager with the
    [tunnelId] and [remotePort] of the message and the transport, and puts
    it in the map under the id, whatever was there: no [close] is called,
    of a replaced manager or of any other.  A later [data] for the id (after
    any arrivals that do not create the id again) is sent to the new manager
    and to no other. *)
Theorem proxyCreated_overwrites transport members st :
  member "event" members = Some (JString "proxyCreated") →
  let tunnelId := member "tunnelId" members in
  let sm := mkSocketManager (constructed st) tunnelId
              (member "remotePort" members) transport in
  let st' := mkState
               (<[Map_key (constructed st) tunnelId := sm]> (idToSocketManager st))
               (S (constructed st)) in
  handler transport (JSON_text (JObject members)) st =
    (fulfilled, st', [Log "creating connection manager"; New sm])
  ∧ (∀ old, Close old ∉ (handler transport (JSON_text (JObject members)) st).2)
  ∧ idToSocketManager st' !! Map_key (constructed st) tunnelId = Some sm
  ∧ ∀ id between transport' later,
      primitive_key tunnelId = Some id →
      (∀ i, i ∈ between → creates id i = false) →
      member "event" later = Some (JString "data") →
      primitive_key (member "tunnelId" later) = Some id →
      handler transport' (JSON_text (JObject later)) (run between st').1 =
        (fulfilled, (run between st').1, [Send sm (JObject later)]).
Proof.
  intros He tunnelId sm st'. rewrite handler_proxyCreated by done.
  fold tunnelId sm st'. split_and!.
  - done.
  - intros old Hin. simpl in Hin.
    remember (Close old) as e eqn:He0. each_member Hin by discriminate.
  - simpl. by rewrite lookup_insert_eq.
  - intros id between transport' later Hid Hcr He' Hid'.
    apply (forward_after id); auto.
    + by apply (primitive_key_stable tunnelId).
    + simpl. rewrite (Map_key_primitive _ _ _ Hid). by rewrite lookup_insert_eq.
Qed.

Lemma proxyCreated_overwrites_witness :
  let st' := mkState {[ k_string "t1" := manager_t1 1 9090 0 ]} 2 in
  idToSocketManager state_t1 !! k_string "t1" = Some (manager_t1 0 8080 0)
  ∧ handler 0 (JSON_text (JObject (proxyCreated_t1 9090))) state_t1 =
      (fulfilled, st',
       [Log "creating connection manager"; New (manager_t1 1 9090 0)])
  ∧ handler 0 (JSON_text (JObject data_t1)) st' =
      (fulfilled, st', [Send (manager_t1 1 9090 0) (JObject data_t1)]).
Proof.
  intros st'.
  destruct (proxyCreated_overwrites 0 (proxyCreated_t1 9090) state_t1 eq_refl)
    as (Hrun & _ & _ & Hlater).
  split; [reflexivity|]. split; [exact Hrun|].
  refine (Hlater (k_string "t1") [] 0 data_t1 eq_refl _ eq_refl eq_refl).
  intros i Hin. by apply elem_of_nil in Hin.
Defined.

(** The callback calls [send] and [close] of the manager under the id of
    the message, and of no other. *)
Lemma handler_target transport data st e r :
  e ∈ (handler transport data st).2 → target e = Some r →
  ∃ members sm,
    data = JSON_text (JObject members)
    ∧ idToSocketManager st !! Map_key (constructed st) (member "tunnelId" members)
      = Some sm
    ∧ sm_ref sm = r
    ∧ (e = Send sm (JObject members) ∨ e = Close sm).
Proof.
  destruct data as [|j]; [by intros ?%elem_of_nil|].
  destruct j; try by intros ?%elem_of_nil.
  rewrite handler_object. cbv zeta. intros Hin Ht. exists members.
  destruct (strict_eq (member "event" members) "proxyCreated").
  { simpl in Hin. apply elem_of_cons in Hin as [->|Hin]; [discriminate|].
    apply list_elem_of_singleton in Hin as ->. discriminate. }
  destruct (strict_eq (member "event" members) "connection"
            || strict_eq (member "event" members) "data").
  { destruct (idToSocketManager st !! Map_key _ _) as [sm|];
      [|by apply elem_of_nil in Hin].
    apply list_elem_of_singleton in Hin as ->. exists sm.
    simpl in Ht. split_and!; [done|done|congruence|by left]. }
  destruct (strict_eq (member "event" members) "proxyClosed");
    [|by apply elem_of_nil in Hin].
  destruct (idToSocketManager st !! Map_key _ _) as [sm|];
    [|by apply elem_of_nil in Hin].
  apply list_elem_of_singleton in Hin as ->. exists sm.
  simpl in Ht. split_and!; [done|done|congruence|by right].
Qed.

Lemma step_constructed i st : (constructed st ≤ constructed (step i st).1)%nat.
Proof.
  destruct (step_state i st) as [->|(transport & members & _ & _ & ->)];
    simpl; lia.
Qed.

(** A manager that is not constructed yet has been sent nothing. *)
Lemma step_sent_to_fresh r i st :
  well_formed st → (constructed st ≤ r)%nat → sent_to r (step i st).2 = [].
Proof.
  intros (Hlt & _ & _) Hr.
  destruct i as [transport|transport data]; [done|].
  unfold step.
  pose proof (handler_target transport data st) as Ht.
  destruct (handler transport data st) as [[p st'] out]. cbn [fst snd] in *.
  induction out as [|e out IH]; [done|].
  assert (sent_to r out = []) as Hout.
  { apply IH. intros e' r' Hin. apply Ht. by apply list_elem_of_further. }
  destruct e; simpl; try done.
  rewrite decide_False; [done|]. intros Href.
  destruct (Ht (Send sm message) (sm_ref sm)) as (members & sm' & _ & Hk & Hs & _);
    [apply list_elem_of_here|done|].
  apply Hlt in Hk. lia.
Qed.

Lemma run_sent_to_fresh r arrivals st :
  well_formed st → (constructed (run arrivals st).1 ≤ r)%nat →
  sent_to r (run arrivals st).2 = [].
Proof.
  revert st. induction arrivals as [|i rest IH]; intros st Hwf Hr; [done|].
  rewrite run_cons in *. cbn [fst snd] in *. rewrite sent_to_app.
  assert (constructed (step i st).1 ≤ r)%nat as Hr1.
  { clear IH. revert Hr. generalize (step i st).1. intros st1.
    induction rest as [|i' rest IH] in st1 |- *; [done|].
    rewrite run_cons. cbn [fst]. intros Hr. apply IH in Hr.
    pose proof (step_constructed i' st1). lia. }
  rewrite IH by (by apply step_well_formed || done).
  rewrite step_sent_to_fresh; [done|done|].
  pose proof (step_constructed i st). lia.
Qed.

(** C4: in every sequence of arrivals since [launch], when a
    [proxyCreated] for an id is followed by arrivals among which the id is not
    created again, the messages sent to the manager that the [proxyCreated]
    constructs are the [connection] and [data] messages for the id that
    follow it, all of them, in the order of arrival. *)
Theorem created_then_forwarded_in_order before transport members id after :
  member "event" members = Some (JString "proxyCreated") →
  primitive_key (member "tunnelId" members) = Some id →
  (∀ i, i ∈ after → creates id i = false) →
  let r := constructed (run before launch.1).1 in
  let sm := mkSocketManager r (member "tunnelId" members)
              (member "remotePort" members) transport in
  let out :=
    (run (before ++ message_on transport (JSON_text (JObject members)) :: after)
       launch.1).2 in
  New sm ∈ out
  ∧ sent_to r out = omap (forwarded id) after.
Proof.
  intros He Hid Hcr r sm out. unfold out. rewrite run_app, run_cons.
  cbn [fst snd]. set (st := (run before launch.1).1).
  assert (well_formed st) as Hwf by apply run_well_formed, launch_well_formed.
  assert ((step (message_on transport (JSON_text (JObject members))) st).2
          = [Log "creating connection manager"; New sm]) as Hout.
  { unfold step. by rewrite handler_proxyCreated. }
  split.
  - rewrite Hout. apply elem_of_app. right. apply elem_of_app. left.
    apply list_elem_of_further, list_elem_of_here.
  - rewrite !sent_to_app, Hout.
    rewrite run_sent_to_fresh by (apply launch_well_formed || done).
    simpl. apply run_sent_to; [|done|].
    + by apply (primitive_key_stable (member "tunnelId" members)).
    + pose proof (created_registered transport members id st Hwf He Hid) as Hreg.
      unfold step. by destruct (handler _ _ st) as [[? ?] ?].
Qed.

Lemma created_then_forwarded_in_order_witness :
  sent_to 0
    (run ([connection 0]
          ++ message_on 0 (JSON_text (JObject (proxyCreated_t1 8080)))
          :: [message_on 0 (JSON_text (JObject data_t1));
              message_on 0 (JSON_text (JObject proxyCreated_t2));
              message_on 0 (JSON_text (JObject data_t2));
              message_on 0 (JSON_text (JObject data_t1))])
       launch.1).2
  = [JObject data_t1; JObject data_t1].
Proof.
  refine (proj2 (created_then_forwarded_in_order [connection 0] 0
                   (proxyCreated_t1 8080) (k_string "t1") _ eq_refl eq_refl _)).
  intros i Hin. each_member Hin by reflexivity.
Defined.

(** C7: in every state reached since [launch], whatever the callback sends
    or closes handling a message is the manager in the map under the tunnel
    id of that message; the managers under all other ids are other
    managers, and nothing of the message reaches them. *)
Theorem dispatch_targets_own_tunnel arrivals transport data e r :
  let st := (run arrivals launch.1).1 in
  e ∈ (handler transport data st).2 → target e = Some r →
  ∃ members sm,
    data = JSON_text (JObject members)
    ∧ idToSocketManager st !! Map_key (constructed st) (member "tunnelId" members)
      = Some sm
    ∧ sm_ref sm = r
    ∧ (e = Send sm (JObject members) ∨ e = Close sm)
    ∧ ∀ B smB,
        B ≠ Map_key (constructed st) (member "tunnelId" members) →
        idToSocketManager st !! B = Some smB →
        sm_ref smB ≠ r.
Proof.
  intros st Hin Ht.
  destruct (handler_target transport data st e r Hin Ht)
    as (members & sm & -> & Hk & Hr & He).
  exists members, sm. split_and!; try done.
  intros B smB Hne HB Href.
  assert (well_formed st) as (_ & _ & Hinj)
    by apply run_well_formed, launch_well_formed.
  apply Hne. apply (Hinj _ _ smB sm); [done|done|congruence].
Qed.

Lemma dispatch_targets_own_tunnel_witness :
  let arrivals :=
    [message_on 0 (JSON_text (JObject (proxyCreated_t1 8080)));
     message_on 0 (JSON_text (JObject proxyCreated_t2))] in
  let st := (run arrivals launch.1).1 in
  ∃ smB,
    idToSocketManager st !! k_string "t2" = Some smB
    ∧ sm_ref smB ≠ 0.
Proof.
  intros arrivals st.
  destruct (dispatch_targets_own_tunnel arrivals 0 (JSON_text (JObject data_t1))
              (Send (manager_t1 0 8080 0) (JObject data_t1)) 0)
    as (members & sm & Hdata & _ & _ & _ & Hother).
  - apply list_elem_of_here.
  - reflexivity.
  - injection Hdata as <-.
    exists (mkSocketManager 1 (Some (JString "t2")) (Some (JNumber 9090)) 0).
    split; [reflexivity|].
    apply (Hother (k_string "t2")); [discriminate|reflexivity].
Defined.

(** ** More of the launcher *)

Lemma step_creating i st :
  creating i = true →
  ∃ transport members,
    i = message_on transport (JSON_text (JObject members))
    ∧ step i st =
        (mkState
           (<[Map_key (constructed st) (member "tunnelId" members) :=
                mkSocketManager (constructed st) (member "tunnelId" members)
                  (member "remotePort" members) transport]>
              (idToSocketManager st))
           (S (constructed st)),
         [Log "creating connection manager";
          New (mkSocketManager (constructed st) (member "tunnelId" members)
                 (member "remotePort" members) transport)]).
Proof.
  destruct i as [|transport [|[]]]; try discriminate. simpl. intros He.
  exists transport, members. split; [done|].
  unfold step. rewrite handler_object. cbv zeta. by rewrite He.
Qed.

Lemma step_not_creating i st :
  creating i = false →
  (step i st).1 = st ∧ constructions (step i st).2 = [].
Proof.
  destruct i as [transport|transport [|j]]; [done|done|].
  destruct j; try done. simpl. intros He.
  unfold step. rewrite handler_object. cbv zeta. rewrite He.
  repeat case_match; simplify_eq/=; done.
Qed.

Lemma constructions_app out1 out2 :
  constructions (out1 ++ out2) = constructions out1 ++ constructions out2.
Proof.
  induction out1 as [|e out1 IH]; [done|]. destruct e; simpl; by rewrite ?IH.
Qed.

(** X1: no arrival takes an entry out of the map.  A tunnel id that has an
    entry has one after any further arrivals, a [proxyClosed] for it among
    them. *)
Theorem entries_never_removed arrivals st k :
  is_Some (idToSocketManager st !! k) →
  is_Some (idToSocketManager (run arrivals st).1 !! k).
Proof.
  revert st. induction arrivals as [|i rest IH]; intros st Hk; [done|].
  rewrite run_cons. cbn [fst]. apply IH.
  destruct (step_state i st) as [->|(transport & members & _ & _ & ->)]; [done|].
  simpl. rewrite lookup_insert_is_Some.
  destruct (decide (Map_key (constructed st) (member "tunnelId" members) = k));
    auto.
Qed.

Lemma entries_never_removed_witness :
  is_Some
    (idToSocketManager
       (run [message_on 0 (JSON_text (JObject proxyClosed_t1));
             message_on 0 (JSON_text (JObject proxyCreated_t2))] state_t1).1
     !! k_string "t1").
Proof. apply entries_never_removed. by eexists. Defined.

(** X2: one manager is constructed for every [proxyCreated] that arrives,
    and none otherwise; the managers are numbered in the order of their
    construction, from the count before. *)
Theorem one_manager_per_proxyCreated arrivals st :
  let n := length (List.filter creating arrivals) in
  constructed (run arrivals st).1 = constructed st + n
  ∧ sm_ref <$> constructions (run arrivals st).2 = seq (constructed st) n.
Proof.
  revert st. induction arrivals as [|i rest IH]; intros st.
  { simpl. split; [lia|done]. }
  rewrite run_cons. cbn [fst snd List.filter]. rewrite constructions_app, fmap_app.
  destruct (IH (step i st).1) as [IHn IHs]. rewrite IHn, IHs.
  destruct (creating i) eqn:Hi.
  - destruct (step_creating i st Hi) as (transport & members & -> & ->).
    simpl. split; [lia|done].
  - destruct (step_not_creating i st Hi) as [-> ->]. simpl. split; [lia|done].
Qed.

(** X3: the transport a message arrives on is used for nothing but the
    construction of a manager: a message that is no [proxyCreated] is
    handled in the same way on every transport. *)
Theorem transport_used_for_creation_only transport1 transport2 data st :
  creating (message_on transport1 data) = false →
  handler transport1 data st = handler transport2 data st.
Proof.
  destruct data as [|j]; [done|]. destruct j; try done. simpl. intros He.
  rewrite !handler_object. cbv zeta. by rewrite He.
Qed.

Lemma transport_used_for_creation_only_witness :
  handler 0 (JSON_text (JObject data_t1)) state_t1 =
  handler 7 (JSON_text (JObject data_t1)) state_t1.
Proof. apply transport_used_for_creation_only. reflexivity. Defined.

(** The managers of the map were constructed, by effects seen. *)
Lemma step_used_seen i st seen :
  (∀ k sm, idToSocketManager st !! k = Some sm → New sm ∈ seen) →
  (∀ e sm, e ∈ (step i st).2 → used e = Some sm → New sm ∈ seen)
  ∧ (∀ k sm, idToSocketManager (step i st).1 !! k = Some sm →
       New sm ∈ seen ++ (step i st).2).
Proof.
  intros Hseen. split.
  - destruct i as [transport|transport data].
    { intros e sm Hin. apply list_elem_of_singleton in Hin as ->. discriminate. }
    unfold step. intros e sm Hin Hu.
    assert (e ∈ (handler transport data st).2) as Hin'
      by (by destruct (handler transport data st) as [[? ?] ?]).
    destruct (handler_target transport data st e (sm_ref sm) Hin')
      as (members & sm' & _ & Hk & _ & He).
    { destruct e; simplify_eq/=; done. }
    apply Hseen in Hk. destruct He as [->| ->]; by simplify_eq/=.
  - intros k sm Hk.
    destruct (creating i) eqn:Hi.
    + destruct (step_creating i st Hi) as (transport & members & -> & Hst).
      rewrite Hst in *. cbn [fst snd idToSocketManager] in *.
      apply lookup_insert_Some in Hk as [[_ <-]|[_ Hk]].
      * apply elem_of_app. right. apply list_elem_of_further, list_elem_of_here.
      * apply elem_of_app. left. eauto.
    + destruct (step_not_creating i st Hi) as [Hst _]. rewrite Hst in Hk.
      apply elem_of_app. left. eauto.
Qed.

Lemma run_used_seen arrivals st seen j e sm :
  (∀ k sm, idToSocketManager st !! k = Some sm → New sm ∈ seen) →
  (run arrivals st).2 !! j = Some e → used e = Some sm →
  New sm ∈ seen ++ take j (run arrivals st).2.
Proof.
  revert st seen j. induction arrivals as [|i rest IH]; intros st seen j Hseen;
    [done|].
  rewrite run_cons. cbn [snd]. intros Hj Hu.
  destruct (step_used_seen i st seen Hseen) as [Hnow Hnext].
  destruct (decide (j < length (step i st).2)) as [Hlt|Hge].
  - rewrite lookup_app_l in Hj by done.
    apply elem_of_app. left. eapply Hnow; [|done].
    by eapply list_elem_of_lookup_2.
  - rewrite lookup_app_r in Hj by lia.
    rewrite take_app_ge by lia. rewrite app_assoc. by apply IH.
Qed.

(** X4: since [launch], [send] and [close] are called of constructed
    managers only: every such call comes after the construction of its
    manager. *)
Theorem send_and_close_after_construction arrivals before e after sm :
  (run arrivals launch.1).2 = before ++ e :: after →
  used e = Some sm →
  New sm ∈ before.
Proof.
  intros Hout Hu.
  replace before with ([] ++ take (length before) (run arrivals launch.1).2).
  - eapply run_used_seen; [|by rewrite Hout, list_lookup_middle|done].
    intros k sm' Hk. simpl in Hk. by rewrite lookup_empty in Hk.
  - by rewrite Hout, take_app_length.
Qed.

Lemma send_and_close_after_construction_witness :
  New (manager_t1 0 8080 0) ∈
    [Log "connection made!"; Log "creating connection manager";
     New (manager_t1 0 8080 0)].
Proof.
  apply (send_and_close_after_construction
           [connection 0;
            message_on 0 (JSON_text (JObject (proxyCreated_t1 8080)));
            message_on 0 (JSON_text (JObject data_t1))]
           _ (Send (manager_t1 0 8080 0) (JObject data_t1)) []);
    reflexivity.
Defined.

Lemma run_entry_origin arrivals st k sm :
  idToSocketManager (run arrivals st).1 !! k = Some sm →
  idToSocketManager st !! k = Some sm
  ∨ ∃ transport members,
      message_on transport (JSON_text (JObject members)) ∈ arrivals
      ∧ member "event" members = Some (JString "proxyCreated")
      ∧ sm_tunnelId sm = member "tunnelId" members
      ∧ sm_remotePort sm = member "remotePort" members
      ∧ sm_transport sm = transport
      ∧ Map_key (sm_ref sm) (sm_tunnelId sm) = k.
Proof.
  revert st. induction arrivals as [|i rest IH]; intros st; [by left|].
  rewrite run_cons. cbn [fst]. intros Hk.
  destruct (IH _ Hk) as [Hst|(transport & members & Hin & Hrest)].
  - destruct (step_state i st) as [Hsame|(transport & members & -> & He & Hnew)].
    { left. by rewrite Hsame in Hst. }
    rewrite Hnew in Hst. simpl in Hst.
    apply lookup_insert_Some in Hst as [[<- <-]|[_ Hst]]; [|by left].
    right. exists transport, members. split_and!; try done. apply list_elem_of_here.
  - right. exists transport, members. split; [|done]. by apply list_elem_of_further.
Qed.

(** X5: since [launch], every entry of the map comes from a [proxyCreated]
    that arrived: its manager holds the [tunnelId] and the [remotePort] of
    that message and the transport it arrived on, and the entry is under the
    key of that [tunnelId]. *)
Theorem entry_comes_from_proxyCreated arrivals k sm :
  idToSocketManager (run arrivals launch.1).1 !! k = Some sm →
  ∃ transport members,
    message_on transport (JSON_text (JObject members)) ∈ arrivals
    ∧ member "event" members = Some (JString "proxyCreated")
    ∧ sm_tunnelId sm = member "tunnelId" members
    ∧ sm_remotePort sm = member "remotePort" members
    ∧ sm_transport sm = transport
    ∧ Map_key (sm_ref sm) (sm_tunnelId sm) = k.
Proof.
  intros Hk. destruct (run_entry_origin _ _ _ _ Hk) as [Hempty|Hfrom]; [|done].
  simpl in Hempty. by rewrite lookup_empty in Hempty.
Qed.

Lemma entry_comes_from_proxyCreated_witness :
  ∃ transport members,
    message_on transport (JSON_text (JObject members)) ∈
      [connection 0; message_on 0 (JSON_text (JObject (proxyCreated_t1 8080)))]
    ∧ member "event" members = Some (JString "proxyCreated")
    ∧ Some (JString "t1") = member "tunnelId" members
    ∧ Some (JNumber 8080) = member "remotePort" members
    ∧ 0 = transport
    ∧ Map_key 0 (Some (JString "t1")) = k_string "t1".
Proof.
  exact (entry_comes_from_proxyCreated
           [connection 0; message_on 0 (JSON_text (JObject (proxyCreated_t1 8080)))]
           (k_string "t1") (manager_t1 0 8080 0) eq_refl).
Defined.

(** X6: the promise of the callback is rejected in three cases and in no
    other: the payload does not parse ([SyntaxError]), it parses to [null]
    ([TypeError], from the read of [event]), or it is a [connection], [data]
    or [proxyClosed] whose tunnel id has no entry ([AssertionError]).  In
    each of them the call has changed nothing and done nothing. *)
Theorem rejected_exactly transport data st e :
  ((handler transport data st).1.1 = rejected e ↔
   fails st data e ∨ (data = JSON_text JNull ∧ e = TypeError))
  ∧ ((handler transport data st).1.1 = rejected e →
     handler transport data st = (rejected e, st, [])).
Proof.
  split; [|apply rejected_unchanged]. split.
  - destruct data as [|j].
    { intros [= <-]. left. constructor. }
    destruct j; try discriminate.
    { intros [= <-]. by right. }
    rewrite handler_object. cbv zeta. intros Hrej. left.
    destruct (strict_eq (member "event" members) "proxyCreated"); [done|].
    destruct (strict_eq (member "event" members) "connection") eqn:Hc.
    { simpl in Hrej. apply strict_eq_true in Hc.
      destruct (idToSocketManager st !! Map_key _ _) eqn:Hk; [done|].
      injection Hrej as <-. constructor; [|done]. rewrite Hc. set_solver. }
    destruct (strict_eq (member "event" members) "data") eqn:Hd.
    { simpl in Hrej. apply strict_eq_true in Hd.
      destruct (idToSocketManager st !! Map_key _ _) eqn:Hk; [done|].
      injection Hrej as <-. constructor; [|done]. rewrite Hd. set_solver. }
    destruct (strict_eq (member "event" members) "proxyClosed") eqn:Hp; [|done].
    simpl in Hrej. apply strict_eq_true in Hp.
    destruct (idToSocketManager st !! Map_key _ _) eqn:Hk; [done|].
    injection Hrej as <-. constructor; [|done]. rewrite Hp. set_solver.
  - intros [Hfail|[-> ->]]; [|done].
    destruct Hfail; [done|]. by rewrite handler_unknown_tunnel.
Qed.

Lemma rejected_exactly_witness :
  (handler 0 (JSON_text JNull) state_t1).1.1 = rejected TypeError
  ∧ handler 0 (JSON_text JNull) state_t1 = (rejected TypeError, state_t1, []).
Proof.
  destruct (rejected_exactly 0 (JSON_text JNull) state_t1 TypeError)
    as [Hiff Hsame].
  assert ((handler 0 (JSON_text JNull) state_t1).1.1 = rejected TypeError) as H.
  { apply Hiff. right. split; reflexivity. }
  split; [exact H|exact (Hsame H)].
Defined.

(** * The fake timers: properties *)
Module FakeTimerFacts.
Import FakeTimer.

Local Open Scope nat_scope.

#[global] Instance by_strikeTime_preorder : PreOrder by_strikeTime.
Proof. split; unfold by_strikeTime; intros ?; [lia|intros ? ? ? ?; lia]. Qed.

#[global] Instance by_strikeTime_total : Total by_strikeTime.
Proof. intros t0 t1. unfold by_strikeTime. lia. Qed.

Lemma insert_permutation t l : insert t l ≡ₚ t :: l.
Proof.
  induction l as [|u l IH]; [done|]. simpl. case_bool_decide; [done|].
  rewrite IH. apply Permutation_swap.
Qed.

Lemma insert_sorted t l :
  StronglySorted by_strikeTime l → StronglySorted by_strikeTime (insert t l).
Proof.
  induction l as [|u l IH]; intros Hl; simpl.
  { repeat constructor. }
  apply StronglySorted_inv in Hl as [Hl Hu].
  case_bool_decide as Htu.
  - constructor; [by constructor|]. constructor; [done|].
    eapply Forall_impl; [exact Hu|]. intros v Hv. by etrans.
  - constructor; [by apply IH|].
    rewrite insert_permutation. constructor; [|done].
    destruct (total by_strikeTime t u); done.
Qed.

#[global] Instance insertion_sort_laws : @SortLaws insertion_sort.
Proof.
  split.
  - intros l. apply StronglySorted_Sorted.
    induction l as [|t l IH]; [constructor|]. by apply insert_sorted.
  - intros l. induction l as [|t l IH]; [done|].
    change (insert t (insertion_sort l) ≡ₚ t :: l).
    by rewrite insert_permutation, IH.
Qed.

Lemma filter_strongly_sorted (P : timeout → Prop) `{!∀ t, Decision (P t)} l :
  StronglySorted by_strikeTime l → StronglySorted by_strikeTime (filter P l).
Proof.
  induction 1 as [|t l Hl IH Ht]; [constructor|].
  rewrite filter_cons. case_decide; [|done].
  constructor; [done|]. rewrite Forall_forall in *.
  intros u [_ Hu]%list_elem_of_filter. by apply Ht.
Qed.

Lemma filter_ids_distinct (P : timeout → Prop) `{!∀ t, Decision (P t)} l :
  NoDup (t_id <$> l) → NoDup (t_id <$> filter P l).
Proof.
  induction l as [|t l IH]; [done|]. rewrite fmap_cons, filter_cons.
  intros [Ht Hl]%NoDup_cons. case_decide; [|by apply IH].
  rewrite fmap_cons. apply NoDup_cons. split; [|by apply IH].
  intros (u & Hid & [_ Hu]%list_elem_of_filter)%list_elem_of_fmap.
  apply Ht, list_elem_of_fmap. eauto.
Qed.

Lemma filter_all {A} (P : A → Prop) `{!∀ x, Decision (P x)} (l : list A) :
  Forall P l → filter P l = l.
Proof.
  induction 1 as [|x l Hx Hl IH]; [done|].
  by rewrite filter_cons_True, IH.
Qed.

Section set_and_clear.
Context `{!ArraySort} `{!SortLaws}.

Lemma sort_strongly_sorted l : StronglySorted by_strikeTime (sort l).
Proof. apply Sorted_StronglySorted; [apply _|apply sort_sorted]. Qed.

Lemma timeouts_fakeSetTimeout c ms g :
  timeouts (fakeSetTimeout c ms g).2
  ≡ₚ mkTimeout (S (timeoutCount g)) (now g + ms) c :: timeouts g.
Proof.
  simpl. rewrite sort_permutation. by rewrite Permutation_app_comm.
Qed.

Lemma invariant_initial : invariant initial.
Proof.
  split; unfold initial; simpl.
  - constructor.
  - constructor.
  - intros t Ht. by apply elem_of_nil in Ht.
  - intros i tid Hi. by rewrite lookup_empty in Hi.
  - intros t i f ms Ht. by apply elem_of_nil in Ht.
Qed.

(** The ids in the array stay distinct when a timeout with the next id is
    added. *)
Lemma added_distinct c ms g :
  invariant g → NoDup (t_id <$> timeouts (fakeSetTimeout c ms g).2).
Proof.
  intros Hinv. rewrite timeouts_fakeSetTimeout. simpl. constructor.
  - intros Hin. apply list_elem_of_fmap in Hin as (t & Hid & Ht).
    apply (inv_given g Hinv) in Ht. lia.
  - apply (inv_distinct g Hinv).
Qed.

Lemma fakeSetTimeout_invariant f ms g :
  invariant g → invariant (fakeSetTimeout (function f) ms g).2.
Proof.
  intros Hinv. split.
  - apply sort_strongly_sorted.
  - by apply added_distinct.
  - intros t. rewrite timeouts_fakeSetTimeout. simpl.
    intros [->|Ht]%elem_of_cons; simpl; [lia|].
    apply (inv_given g Hinv) in Ht. lia.
  - intros i tid Hi. simpl in Hi. apply (inv_intervals g Hinv) in Hi. simpl. lia.
  - intros t i f' ms'. rewrite timeouts_fakeSetTimeout. simpl.
    intros [->|Ht]%elem_of_cons; [done|]. by apply (inv_actions g Hinv).
Qed.

Lemma fakeClearTimeout_invariant idToClear g :
  invariant g → invariant (fakeClearTimeout idToClear g).
Proof.
  intros Hinv. split; simpl.
  - apply filter_strongly_sorted, (inv_sorted g Hinv).
  - apply filter_ids_distinct, (inv_distinct g Hinv).
  - intros t [_ Ht]%list_elem_of_filter. by apply (inv_given g Hinv).
  - apply (inv_intervals g Hinv).
  - intros t i f ms [_ Ht]%list_elem_of_filter. by apply (inv_actions g Hinv).
Qed.

Lemma arm_invariant i f ms g :
  invariant g → 1 ≤ i ≤ intervalCount g → idle i (timeouts g) →
  invariant (arm i f ms g).
Proof.
  intros Hinv Hi Hidle. unfold arm.
  pose proof (timeouts_fakeSetTimeout (action i f ms) ms g) as Hperm.
  pose proof (added_distinct (action i f ms) ms g Hinv) as Hdistinct.
  simpl in *. split; simpl.
  - apply sort_strongly_sorted.
  - done.
  - intros t. rewrite Hperm. intros [->|Ht]%elem_of_cons; simpl; [lia|].
    apply (inv_given g Hinv) in Ht. lia.
  - intros j tid [[<- <-]|[_ Hj]]%lookup_insert_Some; [lia|].
    apply (inv_intervals g Hinv) in Hj. lia.
  - intros t j f' ms'. rewrite Hperm.
    intros [->|Ht]%elem_of_cons Hc; simpl in *.
    + simplify_eq. by rewrite lookup_insert_eq.
    + destruct (decide (i = j)) as [<-|Hne]; [by destruct (Hidle t f' ms')|].
      rewrite lookup_insert_ne by done. by eapply (inv_actions g Hinv).
Qed.

Lemma fakeSetInterval_invariant f ms g :
  invariant g → invariant (fakeSetInterval f ms g).2.
Proof.
  intros Hinv. unfold fakeSetInterval. cbn [snd]. apply arm_invariant.
  - split; simpl; try apply Hinv.
    intros i tid Hi. apply (inv_intervals g Hinv) in Hi. lia.
  - simpl. lia.
  - simpl. intros t f' ms' Ht Hc.
    apply (inv_actions g Hinv _ _ _ _ Ht), (inv_intervals g Hinv) in Hc. lia.
Qed.

(** X8: [fakeSetTimeout] returns an id that no pending timeout has, and
    adds one timeout to the pending ones: that of the new id, due [ms] after
    [now], with the callback.  The array is in the order of the times, and
    the clock and the intervals are as before. *)
Theorem fakeSetTimeout_adds_one c ms g :
  invariant g →
  ((fakeSetTimeout c ms g).1 ∉ (t_id <$> timeouts g))
  ∧ timeouts (fakeSetTimeout c ms g).2
    ≡ₚ mkTimeout (fakeSetTimeout c ms g).1 (now g + ms) c :: timeouts g
  ∧ StronglySorted by_strikeTime (timeouts (fakeSetTimeout c ms g).2)
  ∧ now (fakeSetTimeout c ms g).2 = now g
  ∧ intervalTimeouts (fakeSetTimeout c ms g).2 = intervalTimeouts g.
Proof.
  intros Hinv. split_and!; try done.
  - simpl. intros (t & Hid & Ht)%list_elem_of_fmap.
    apply (inv_given g Hinv) in Ht. lia.
  - apply timeouts_fakeSetTimeout.
  - apply sort_strongly_sorted.
Qed.

(** X9: a timeout that is set and then cleared by the id returned leaves
    the pending timeouts as they were, in the order of their times; the id
    is used up. *)
Theorem set_then_clear c ms g :
  invariant g →
  let set := fakeSetTimeout c ms g in
  let cleared := fakeClearTimeout (Some set.1) set.2 in
  timeouts cleared ≡ₚ timeouts g
  ∧ StronglySorted by_strikeTime (timeouts cleared)
  ∧ timeoutCount cleared = S (timeoutCount g)
  ∧ (set.1 ∉ (t_id <$> timeouts cleared)).
Proof.
  intros Hinv set cleared. split_and!.
  - unfold cleared, set. simpl. rewrite sort_permutation.
    rewrite filter_app, filter_cons_False, filter_nil, app_nil_r
      by (simpl; intros Hne; by apply Hne).
    rewrite filter_all; [done|].
    apply Forall_forall. intros t Ht [= Hid].
    apply (inv_given g Hinv) in Ht. lia.
  - apply filter_strongly_sorted, sort_strongly_sorted.
  - done.
  - unfold cleared. simpl.
    intros (t & Hid & [Hne _]%list_elem_of_filter)%list_elem_of_fmap.
    apply Hne. by rewrite <- Hid.
Qed.

(** X10: clearing what is not pending changes nothing: [fakeClearTimeout]
    of [undefined] or of an id that no pending timeout has, and
    [fakeClearInterval] of an id that [intervalTimeouts] has nothing for. *)
Theorem clear_of_nothing_pending idToClear i (g : globals) :
  ((∀ id, idToClear = Some id → id ∉ (t_id <$> timeouts g)) →
   fakeClearTimeout idToClear g = g)
  ∧ (intervalTimeouts g !! i = None → fakeClearInterval i g = g).
Proof.
  assert (∀ x, (∀ id, x = Some id → id ∉ (t_id <$> timeouts g)) →
               fakeClearTimeout x g = g) as Hclear.
  { intros x Hx. unfold fakeClearTimeout.
    rewrite filter_all; [by destruct g|].
    apply Forall_forall. intros t Ht Hid. symmetry in Hid.
    apply (Hx _ Hid), list_elem_of_fmap. eauto. }
  split; [apply Hclear|].
  intros Hi. unfold fakeClearInterval. rewrite Hi. by apply Hclear.
Qed.

End set_and_clear.

Section advancing.
Context `{!ArraySort} `{!SortLaws} `{!Callbacks}.

Lemma run_due_nil fuel advanceTo g :
  timeouts g = [] → run_due fuel advanceTo g = Some (g, []).
Proof. intros Hg. destruct fuel; simpl; by rewrite Hg. Qed.

Lemma run_due_not_due fuel advanceTo g t rest :
  timeouts g = t :: rest → ¬ due advanceTo t →
  run_due fuel advanceTo g = Some (g, []).
Proof.
  intros Hg Ht. destruct fuel; simpl; rewrite Hg;
    by rewrite bool_decide_eq_false_2.
Qed.

Lemma run_due_round fuel advanceTo g t rest :
  timeouts g = t :: rest → due advanceTo t →
  run_due (S fuel) advanceTo g =
    match run_due fuel advanceTo (call (t_callback t) (taken t rest g)) with
    | Some (g', called) => Some (g', t :: called)
    | None => None
    end.
Proof. intros Hg Ht. simpl. rewrite Hg. by rewrite bool_decide_eq_true_2. Qed.

Lemma run_due_out_of_fuel advanceTo g t rest :
  timeouts g = t :: rest → due advanceTo t → run_due 0 advanceTo g = None.
Proof. intros Hg Ht. simpl. rewrite Hg. by rewrite bool_decide_eq_true_2. Qed.


End advancing.

Section quiet_callbacks.
Context `{!ArraySort} `{!SortLaws} `{!Callbacks}.
Hypothesis callbacks_quiet : ∀ f g, body f g = g.

Lemma taken_invariant g t rest :
  invariant g → timeouts g = t :: rest → invariant (taken t rest g).
Proof.
  intros Hinv Hg. destruct Hinv as [Hs Hd Hgiven Hint Hact]. rewrite Hg in *.
  apply StronglySorted_inv in Hs as [Hs _].
  rewrite fmap_cons in Hd. apply NoDup_cons in Hd as [_ Hd].
  split; simpl; try done.
  - intros u Hu. apply Hgiven. by apply list_elem_of_further.
  - intros u i f ms Hu. apply Hact. by apply list_elem_of_further.
Qed.

(** When the timeout of an interval is taken, the interval has no other. *)
Lemma taken_idle g t rest i f ms :
  invariant g → timeouts g = t :: rest → t_callback t = action i f ms →
  idle i rest ∧ 1 ≤ i ≤ intervalCount g.
Proof.
  intros Hinv Hg Hc. destruct Hinv as [Hs Hd Hgiven Hint Hact]. rewrite Hg in *.
  pose proof (Hact t i f ms (list_elem_of_here _ _) Hc) as Hi.
  split; [|by apply Hint in Hi as [? _]].
  intros u f' ms' Hu Hc'.
  pose proof (Hact u i f' ms' (list_elem_of_further _ _ _ Hu) Hc') as Hi'.
  rewrite fmap_cons in Hd. apply NoDup_cons in Hd as [Hd _].
  apply Hd, list_elem_of_fmap. exists u. split; [congruence|done].
Qed.

Lemma round_invariant g t rest :
  invariant g → timeouts g = t :: rest →
  invariant (call (t_callback t) (taken t rest g)).
Proof.
  intros Hinv Hg. pose proof (taken_invariant g t rest Hinv Hg) as Htaken.
  unfold call. destruct (t_callback t) as [f|i f ms] eqn:Hc;
    rewrite callbacks_quiet; [done|].
  destruct (taken_idle g t rest i f ms Hinv Hg Hc) as [Hidle Hi].
  by apply arm_invariant.
Qed.

Lemma run_due_invariant fuel advanceTo g g' called :
  invariant g → run_due fuel advanceTo g = Some (g', called) → invariant g'.
Proof.
  revert g g' called. induction fuel as [|fuel IH]; intros g g' called Hinv.
  - destruct (timeouts g) as [|t rest] eqn:Hg.
    { rewrite run_due_nil by done. by intros [= <- _]. }
    destruct (decide (due advanceTo t)) as [Ht|Ht].
    + by rewrite (run_due_out_of_fuel _ _ _ _ Hg Ht).
    + rewrite (run_due_not_due _ _ _ _ _ Hg Ht). by intros [= <- _].
  - destruct (timeouts g) as [|t rest] eqn:Hg.
    { rewrite run_due_nil by done. by intros [= <- _]. }
    destruct (decide (due advanceTo t)) as [Ht|Ht].
    + rewrite (run_due_round _ _ _ _ _ Hg Ht).
      destruct (run_due fuel _ _) as [[g1 called1]|] eqn:Hrun; [|done].
      intros [= <- _]. eapply IH; [|exact Hrun]. by apply round_invariant.
    + rewrite (run_due_not_due _ _ _ _ _ Hg Ht). by intros [= <- _].
Qed.

Lemma advanceClock_invariant fuel deltaMs g g' called :
  invariant g → advanceClock fuel deltaMs g = Some (g', called) → invariant g'.
Proof.
  intros Hinv. unfold advanceClock.
  destruct (run_due fuel _ g) as [[g1 called1]|] eqn:Hrun; [|done].
  intros [= <- _]. apply (run_due_invariant _ _ _ _ _ Hinv) in Hrun.
  destruct Hrun. by split.
Qed.

(** X7: whatever a test calls of the module (with callbacks that leave the
    timers alone), between the calls the array of timeouts is in the order
    of the times, the ids of the pending timeouts are distinct and among
    those given out, and an interval has at most one pending timeout, the
    one [intervalTimeouts] has for it. *)
Theorem reachable_invariant g : reachable g → invariant g.
Proof.
  induction 1 as [|g _ _|f ms g _ IH|x g _ IH|f ms g _ IH|i g _ IH
                  |fuel deltaMs g g' called _ IH Hrun].
  - apply invariant_initial.
  - apply invariant_initial.
  - by apply fakeSetTimeout_invariant.
  - by apply fakeClearTimeout_invariant.
  - by apply fakeSetInterval_invariant.
  - by apply fakeClearTimeout_invariant.
  - by eapply advanceClock_invariant.
Qed.

Lemma fakeClearInterval_idle i g :
  invariant g → idle i (timeouts (fakeClearInterval i g)).
Proof.
  intros Hinv t f ms [Hne Ht]%list_elem_of_filter Hc.
  apply Hne. symmetry. by eapply (inv_actions g Hinv).
Qed.

Lemma timeouts_arm i f ms g :
  timeouts (arm i f ms g)
  ≡ₚ mkTimeout (S (timeoutCount g)) (now g + ms) (action i f ms) :: timeouts g.
Proof. apply (timeouts_fakeSetTimeout (action i f ms) ms g). Qed.

(** The timeouts after one round of the loop: the rest, and for an
    interval its next timeout. *)
Lemma timeouts_round g t rest :
  timeouts (call (t_callback t) (taken t rest g))
  ≡ₚ match t_callback t with
     | function _ => rest
     | action i f ms =>
         mkTimeout (S (timeoutCount g)) (t_strikeTime t + ms) (action i f ms)
         :: rest
     end.
Proof.
  unfold call. destruct (t_callback t) as [f|i f ms]; rewrite callbacks_quiet;
    [done|]. by rewrite timeouts_arm.
Qed.

Lemma run_due_idle i fuel advanceTo g g' called :
  idle i (timeouts g) → run_due fuel advanceTo g = Some (g', called) →
  idle i called ∧ idle i (timeouts g').
Proof.
  assert (idle i []) as Hnil by (intros t ? ? Ht; by apply elem_of_nil in Ht).
  revert g g' called. induction fuel as [|fuel IH]; intros g g' called Hidle.
  - destruct (timeouts g) as [|t rest] eqn:Hg.
    { rewrite run_due_nil by done. intros [= <- <-]. by rewrite Hg. }
    destruct (decide (due advanceTo t)) as [Ht|Ht].
    + by rewrite (run_due_out_of_fuel _ _ _ _ Hg Ht).
    + rewrite (run_due_not_due _ _ _ _ _ Hg Ht). intros [= <- <-].
      by rewrite Hg.
  - destruct (timeouts g) as [|t rest] eqn:Hg.
    { rewrite run_due_nil by done. intros [= <- <-]. by rewrite Hg. }
    destruct (decide (due advanceTo t)) as [Ht|Ht].
    + rewrite (run_due_round _ _ _ _ _ Hg Ht).
      destruct (run_due fuel _ _) as [[g1 called1]|] eqn:Hrun; [|done].
      intros [= <- <-]. apply IH in Hrun as [Hcalled Hrest].
      * split; [|done]. intros u f ms [->|Hu]%elem_of_cons.
        -- apply Hidle, list_elem_of_here.
        -- by apply Hcalled.
      * intros u f ms. rewrite timeouts_round.
        destruct (t_callback t) as [f'|j f' ms'] eqn:Hc.
        -- intros Hu. by apply Hidle, list_elem_of_further.
        -- intros [->|Hu]%elem_of_cons; simpl.
           ++ rewrite <- Hc. apply Hidle, list_elem_of_here.
           ++ by apply Hidle, list_elem_of_further.
    + rewrite (run_due_not_due _ _ _ _ _ Hg Ht). intros [= <- <-].
      by rewrite Hg.
Qed.

(** X11: [fakeClearInterval] stops an interval.  After it the interval has
    no pending timeout, and however the clock is advanced then (with
    callbacks that leave the timers alone), the callback is not called for
    this interval again. *)
Theorem cleared_interval_not_called i fuel deltaMs g g' called :
  invariant g →
  advanceClock fuel deltaMs (fakeClearInterval i g) = Some (g', called) →
  idle i (timeouts (fakeClearInterval i g))
  ∧ idle i called
  ∧ idle i (timeouts g').
Proof.
  intros Hinv Hrun. pose proof (fakeClearInterval_idle i g Hinv) as Hidle.
  split; [done|]. unfold advanceClock in Hrun.
  destruct (run_due fuel _ _) as [[g1 called1]|] eqn:Hdue; [|done].
  injection Hrun as <- <-. simpl. by eapply run_due_idle.
Qed.

(** With functions of the test only in the array, the loop calls the
    timeouts that are due, in the order of the array, and leaves the
    others. *)
Lemma run_due_functions advanceTo l :
  ∀ fuel g,
    timeouts g = l →
    StronglySorted by_strikeTime l →
    (∀ t, t ∈ l → ∃ f, t_callback t = function f) →
    length (filter (due advanceTo) l) ≤ fuel →
    ∃ time,
      run_due fuel advanceTo g =
        Some (mkGlobals time (timeoutCount g) (intervalCount g)
                (filter (λ t, ¬ due advanceTo t) l) (intervalTimeouts g),
              filter (due advanceTo) l).
Proof.
  induction l as [|t rest IH]; intros fuel g Hg Hsorted Hfun Hfuel.
  { exists (now g). rewrite run_due_nil by done. by destruct g; simplify_eq/=. }
  apply StronglySorted_inv in Hsorted as [Hrest Ht].
  destruct (decide (due advanceTo t)) as [Hdue|Hdue].
  - rewrite (filter_cons_True (due advanceTo)) in Hfuel by done.
    rewrite (filter_cons_True (due advanceTo)) by done.
    rewrite filter_cons_False by (intros Hn; by apply Hn).
    destruct fuel as [|fuel]; [simpl in Hfuel; lia|].
    rewrite (run_due_round _ _ _ _ _ Hg Hdue).
    destruct (Hfun t (list_elem_of_here _ _)) as [f Hc]. rewrite Hc.
    unfold call. rewrite callbacks_quiet.
    destruct (IH fuel (taken t rest g)) as [time Hrun]; try done.
    + intros u Hu. apply Hfun. by apply list_elem_of_further.
    + simpl in Hfuel. lia.
    + rewrite Hrun. exists time. reflexivity.
  - assert (Forall (λ u, ¬ due advanceTo u) rest) as Hnone.
    { eapply Forall_impl; [exact Ht|]. unfold due, by_strikeTime in *.
      intros u Hu. lia. }
    rewrite (filter_cons_False (due advanceTo)) by done.
    rewrite (filter_cons_True (λ t, ¬ due advanceTo t)) by done.
    rewrite (filter_all (λ t, ¬ due advanceTo t)) by done.
    assert (filter (due advanceTo) rest = []) as ->.
    { clear -Hnone. induction Hnone as [|u l Hu Hl IH]; [done|].
      by rewrite filter_cons_False. }
    exists (now g). rewrite (run_due_not_due _ _ _ _ _ Hg Hdue).
    by destruct g; simplify_eq/=.
Qed.

(** X12: when only functions of the test are pending (no interval) and they
    leave the timers alone, [advanceClock] calls the timeouts that are due
    at the new time, in the order of the array, takes them from it and
    leaves the others; the clock is at the new time, the counters are as
    before. *)
Theorem advanceClock_calls_what_is_due fuel deltaMs g :
  StronglySorted by_strikeTime (timeouts g) →
  (∀ t, t ∈ timeouts g → ∃ f, t_callback t = function f) →
  let advanceTo := (now g + deltaMs)%Z in
  length (filter (due advanceTo) (timeouts g)) ≤ fuel →
  advanceClock fuel deltaMs g =
    Some (mkGlobals advanceTo (timeoutCount g) (intervalCount g)
            (filter (λ t, ¬ due advanceTo t) (timeouts g)) (intervalTimeouts g),
          filter (due advanceTo) (timeouts g)).
Proof.
  intros Hsorted Hfun advanceTo Hfuel. unfold advanceClock. fold advanceTo.
  destruct (run_due_functions advanceTo (timeouts g) fuel g) as [time ->];
    done.
Qed.






Lemma round_sorted g t rest :
  StronglySorted by_strikeTime (t :: rest) →
  StronglySorted by_strikeTime (timeouts (call (t_callback t) (taken t rest g))).
Proof.
  intros [Hrest _]%StronglySorted_inv. unfold call.
  destruct (t_callback t); rewrite callbacks_quiet; [done|].
  apply sort_strongly_sorted.
Qed.



(** With a due timeout of an interval whose period is not positive in the
    array, the loop has not ended after any number of rounds. *)
Lemma run_due_never_ends advanceTo fuel :
  ∀ g,
    StronglySorted by_strikeTime (timeouts g) →
    (∃ t i f ms,
       t ∈ timeouts g ∧ t_callback t = action i f ms ∧ (ms ≤ 0)%Z
       ∧ due advanceTo t) →
    run_due fuel advanceTo g = None.
Proof.
  induction fuel as [|fuel IH]; intros g Hsorted (t & i & f & ms & Hin & Hc & Hms & Ht).
  - destruct (timeouts g) as [|u rest] eqn:Hg; [by apply elem_of_nil in Hin|].
    apply (run_due_out_of_fuel _ _ _ _ Hg).
    apply elem_of_cons in Hin as [<-|Hin]; [done|].
    apply StronglySorted_inv in Hsorted as [_ Hu].
    rewrite Forall_forall in Hu. apply Hu in Hin.
    unfold due, by_strikeTime in *. lia.
  - destruct (timeouts g) as [|u rest] eqn:Hg; [by apply elem_of_nil in Hin|].
    assert (due advanceTo u) as Hu.
    { apply elem_of_cons in Hin as [<-|Hin]; [done|].
      apply StronglySorted_inv in Hsorted as [_ Hu].
      rewrite Forall_forall in Hu. apply Hu in Hin.
      unfold due, by_strikeTime in *. lia. }
    rewrite (run_due_round _ _ _ _ _ Hg Hu).
    rewrite IH; [done|by apply round_sorted|].
    setoid_rewrite (timeouts_round g u rest).
    apply elem_of_cons in Hin as [<-|Hin].
    + rewrite Hc.
      exists (mkTimeout (S (timeoutCount g)) (t_strikeTime t + ms) (action i f ms)),
        i, f, ms.
      split_and!; [apply list_elem_of_here|done|done|].
      unfold due in *. simpl. lia.
    + exists t, i, f, ms. split_and!; try done.
      destruct (t_callback u); [done|by apply list_elem_of_further].
Qed.

(** X14: an interval whose period is zero or negative makes [advanceClock]
    loop without end as soon as its timeout is due: the action sets the
    next timeout no later than the one it was called for.  No bound on the
    rounds of the loop is enough. *)
Theorem advanceClock_never_ends fuel deltaMs g t i f ms :
  StronglySorted by_strikeTime (timeouts g) →
  t ∈ timeouts g → t_callback t = action i f ms → (ms ≤ 0)%Z →
  due (now g + deltaMs) t →
  advanceClock fuel deltaMs g = None.
Proof.
  intros Hsorted Hin Hc Hms Ht. unfold advanceClock.
  rewrite run_due_never_ends; [done|done|]. by exists t, i, f, ms.
Qed.

End quiet_callbacks.

Section composition.
Context `{!ArraySort} `{!Callbacks}.




End composition.

(** ** The test of the example *)

Lemma example_invariant : invariant example.
Proof.
  apply (@fakeSetTimeout_invariant insertion_sort _),
    (@fakeSetInterval_invariant insertion_sort _),
    (@fakeSetTimeout_invariant insertion_sort _), invariant_initial.
Qed.

Lemma example_timeouts :
  timeouts example =
    [mkTimeout 2 30 (action 1 8 30); mkTimeout 3 60 (function 9);
     mkTimeout 1 100 (function 7)].
Proof. reflexivity. Qed.

Lemma reachable_invariant_witness :
  invariant
    (mkGlobals 100 6 1 [mkTimeout 6 120 (action 1 8 30)] {[ 1 := 6 ]}).
Proof.
  apply (@reachable_invariant insertion_sort _ quiet (λ _ _, eq_refl)).
  eapply (@reach_advanceClock insertion_sort quiet 10 100 example);
    [|reflexivity].
  apply reach_fakeSetTimeout, reach_fakeSetInterval, reach_fakeSetTimeout,
    reach_initial.
Defined.

Lemma fakeSetTimeout_adds_one_witness :
  let set := @fakeSetTimeout insertion_sort (function 3) 10 example in
  set.1 = 4
  ∧ (set.1 ∉ (t_id <$> timeouts example))
  ∧ timeouts set.2 ≡ₚ mkTimeout 4 10 (function 3) :: timeouts example.
Proof.
  intros set.
  destruct (@fakeSetTimeout_adds_one insertion_sort _ (function 3) 10 example
              example_invariant) as (Hnew & Hadded & _).
  split; [reflexivity|]. split; [exact Hnew|exact Hadded].
Defined.

Lemma set_then_clear_witness :
  let set := @fakeSetTimeout insertion_sort (function 3) 10 example in
  timeouts (fakeClearTimeout (Some set.1) set.2) ≡ₚ timeouts example.
Proof.
  exact (proj1 (@set_then_clear insertion_sort _ (function 3) 10 example
                  example_invariant)).
Defined.

Lemma clear_of_nothing_pending_witness :
  fakeClearTimeout None example = example
  ∧ fakeClearTimeout (Some 9) example = example
  ∧ fakeClearInterval 5 example = example.
Proof.
  split_and!.
  - apply (proj1 (clear_of_nothing_pending None 5 example)). discriminate.
  - apply (proj1 (clear_of_nothing_pending (Some 9) 5 example)).
    intros id [= <-]. rewrite example_timeouts. simpl.
    intros Hin. repeat (apply elem_of_cons in Hin as [Hin|Hin]; [discriminate|]).
    by apply elem_of_nil in Hin.
  - apply (proj2 (clear_of_nothing_pending None 5 example)). reflexivity.
Defined.

Lemma cleared_interval_not_called_witness :
  idle 1 [mkTimeout 3 60 (function 9); mkTimeout 1 100 (function 7)].
Proof.
  refine (proj1 (proj2
    (@cleared_interval_not_called insertion_sort _ quiet (λ _ _, eq_refl)
       1 10 100 example _ _ example_invariant _))).
  reflexivity.
Defined.

Lemma example_functions_sorted :
  StronglySorted by_strikeTime (timeouts example_functions).
Proof. apply (@sort_strongly_sorted insertion_sort _). Qed.

Lemma advanceClock_calls_what_is_due_witness :
  @advanceClock insertion_sort quiet 1 60 example_functions =
    Some (mkGlobals 60 2 0 [mkTimeout 1 100 (function 7)] ∅,
          [mkTimeout 2 60 (function 9)]).
Proof.
  apply (@advanceClock_calls_what_is_due insertion_sort quiet (λ _ _, eq_refl)
           1 60 example_functions example_functions_sorted).
  - intros t Ht. apply elem_of_cons in Ht as [->|Ht]; [by exists 9|].
    apply list_elem_of_singleton in Ht as ->. by exists 7.
  - simpl. lia.
Defined.




Lemma advanceClock_never_ends_witness :
  @advanceClock insertion_sort quiet 1000 0 example_zero = None.
Proof.
  apply (@advanceClock_never_ends insertion_sort _ quiet (λ _ _, eq_refl)
           1000 0 example_zero (mkTimeout 1 0 (action 1 8 0)) 1 8 0).
  - apply (@sort_strongly_sorted insertion_sort _).
  - apply list_elem_of_here.
  - reflexivity.
  - lia.
  - unfold due. simpl. lia.
Defined.


End FakeTimerFacts.

(** * The outline view: properties *)
Module OutlineViewFacts.
Import OutlineView.

Local Open Scope nat_scope.

(** Induction on an outline node, with the property of its children. *)
Lemma OutlineTree_induction (P : OutlineTree → Prop) :
  (∀ id ic k tokens text below,
     Forall P below → P (mkOutlineTree id ic k tokens text below)) →
  ∀ t, P t.
Proof.
  intros Hstep. fix IH 1. intros [id ic k tokens text below].
  apply Hstep. induction below as [|t below IHbelow]; constructor.
  - apply IH.
  - apply IHbelow.
Qed.

(** ** The node at a path *)

Lemma tree_at_cons trees i j rest :
  tree_at trees (i :: j :: rest) =
    match trees !! i with
    | Some t => tree_at (children t) (j :: rest)
    | None => None
    end.
Proof. reflexivity. Qed.

Lemma tree_at_single trees i : tree_at trees [i] = trees !! i.
Proof. simpl. by destruct (trees !! i). Qed.

Lemma descend_lookup trees i rest :
  descend (trees !! i) rest =
    match tree_at trees (i :: rest) with
    | Some t => normal (Some t)
    | None =>
        match rest with
        | [] => normal None
        | _ :: _ =>
            match tree_at trees (removelast (i :: rest)) with
            | Some _ => normal None
            | None => thrown TypeError
            end
        end
    end.
Proof.
  revert trees i. induction rest as [|j rest IH]; intros trees i.
  { rewrite tree_at_single. simpl. by destruct (trees !! i). }
  change (descend (trees !! i) (j :: rest))
    with (match trees !! i with
          | Some n => descend (children n !! j) rest
          | None => thrown TypeError
          end).
  change (removelast (i :: j :: rest)) with (i :: removelast (j :: rest)).
  rewrite tree_at_cons. destruct (trees !! i) as [t|] eqn:Ht.
  - rewrite IH. destruct (tree_at (children t) (j :: rest)); [done|].
    destruct rest as [|k rest].
    + change (removelast [j]) with (@nil nat). by rewrite tree_at_single, Ht.
    + change (removelast (j :: k :: rest)) with (j :: removelast (k :: rest)).
      by rewrite tree_at_cons, Ht.
  - destruct rest as [|k rest].
    + change (removelast [j]) with (@nil nat). by rewrite tree_at_single, Ht.
    + change (removelast (j :: k :: rest)) with (j :: removelast (k :: rest)).
      by rewrite tree_at_cons, Ht.
Qed.

Lemma select_outline trees path :
  selectNodeFromPath (outline trees) path =
    match tree_at trees path with
    | Some t => normal (Some t)
    | None =>
        match path with
        | [] | [_] => normal None
        | _ :: _ :: _ =>
            match tree_at trees (removelast path) with
            | Some _ => normal None
            | None => thrown TypeError
            end
        end
    end.
Proof.
  destruct path as [|i rest]; [reflexivity|].
  unfold selectNodeFromPath. rewrite descend_lookup.
  destruct (tree_at trees (i :: rest)); [done|]. by destruct rest.
Qed.

(** X16: for an outline of the kind [outline], [selectNodeFromPath] returns
    the node at the path when the path is one of the outline.  For the empty
    path, and when only the last index is out of range, it returns
    [undefined] and does not fail; when an index before the last is out of
    range it throws a [TypeError].  For an outline of another kind it fails
    the [invariant]. *)
Theorem selectNodeFromPath_result o path :
  selectNodeFromPath o path =
    match o with
    | outline trees =>
        match tree_at trees path with
        | Some t => normal (Some t)
        | None =>
            match path with
            | [] | [_] => normal None
            | _ :: _ :: _ =>
                match tree_at trees (removelast path) with
                | Some _ => normal None
                | None => thrown TypeError
                end
            end
        end
    | _ => thrown AssertionError
    end.
Proof.
  destruct o as [| | | | |trees]; try reflexivity. apply select_outline.
Qed.

Lemma descend_app node path i :
  descend node (path ++ [i]) =
    match descend node path with
    | normal (Some t) => normal (children t !! i)
    | normal None => thrown TypeError
    | thrown e => thrown e
    end.
Proof.
  revert node. induction path as [|j path IH]; intros node; simpl.
  - by destruct node.
  - destruct node; [apply IH|done].
Qed.

(** X17: the node at a path and an index more is the child of that index of
    the node at the path: when [selectNodeFromPath] returns a node for a
    path, it returns for the path with one index more the child of the node
    at this index, or [undefined] when the node has no such child. *)
Theorem selectNodeFromPath_child o path t i :
  selectNodeFromPath o path = normal (Some t) →
  selectNodeFromPath o (path ++ [i]) = normal (children t !! i).
Proof.
  destruct o as [| | | | |trees]; try discriminate.
  destruct path as [|j path]; [discriminate|].
  simpl. rewrite descend_app. by intros ->.
Qed.

(** ** The tree that is shown *)

Lemma node_at_single nodes i : node_at nodes [i] = nodes !! i.
Proof. simpl. by destruct (nodes !! i) as [[]|]. Qed.

Lemma node_at_cons nodes i j rest :
  node_at nodes (i :: j :: rest) =
    match nodes !! i with
    | Some (NESTED _ below _) => node_at below (j :: rest)
    | _ => None
    end.
Proof. simpl. by destruct (nodes !! i) as [[]|]. Qed.

(** X18: the tree that is shown has the shape of the outline: the node
    shown at a path is the node made of the outline node at this path, so
    that [selectNodeFromPath] with the path of a node shown returns the
    outline node that the node shown was made of. *)
Theorem shown_node_selects_its_outline_node g sr trees path :
  node_at (_getNodes g sr trees) path =
    _outlineTreeToNode g sr <$> tree_at trees path
  ∧ ∀ n, node_at (_getNodes g sr trees) path = Some n →
      ∃ t, selectNodeFromPath (outline trees) path = normal (Some t)
           ∧ n = _outlineTreeToNode g sr t.
Proof.
  assert (node_at (_getNodes g sr trees) path =
            _outlineTreeToNode g sr <$> tree_at trees path) as Hshape.
  { unfold _getNodes. revert trees.
    induction path as [|i rest IH]; intros trees; [done|].
    destruct rest as [|j rest].
    - by rewrite node_at_single, tree_at_single, list_lookup_fmap.
    - rewrite node_at_cons, tree_at_cons, list_lookup_fmap.
      destruct (trees !! i) as [t|]; [|done].
      destruct t as [id ic k tokens text [|c below]]; [done|].
      apply IH. }
  split; [done|]. intros n Hn. rewrite Hshape in Hn.
  destruct (tree_at trees path) as [t|] eqn:Ht; [|done].
  injection Hn as <-. exists t. split; [|done].
  by rewrite select_outline, Ht.
Qed.

(** ** The text of an item *)

Lemma render_tokens_plain tokens i offset e :
  e ∈ render_tokens tokens i None offset → ¬ highlighted e.
Proof.
  revert i offset. induction tokens as [|token rest IH]; intros i offset.
  { by intros ?%elem_of_nil. }
  simpl. intros [->|He]%elem_of_cons; [by intros []|]. by eapply IH.
Qed.

Lemma renderItem_plain g t e : e ∈ renderItem g t None → ¬ highlighted e.
Proof.
  unfold renderItem. intros [He|He]%elem_of_app.
  - destruct (icon t) as [iconName|].
    + destruct (g iconName); apply list_elem_of_singleton in He as ->;
        by intros [].
    + destruct (kind t); [|by apply elem_of_nil in He].
      apply list_elem_of_singleton in He as ->. by intros [].
  - destruct (tokenizedText t) as [tokens|]; [by eapply render_tokens_plain|].
    destruct (plainText t); apply list_elem_of_singleton in He as ->;
      by intros [].
Qed.

(** X19: the labels of the tree that is shown are never highlighted.
    [_outlineTreeToNode] calls [renderItem] with the outline node alone, so
    whatever the search results are, with matching characters or not, no
    label of a node shown, at any depth, has a [HighlightedText]. *)
Theorem shown_labels_not_highlighted g sr t label e :
  label ∈ labels (_outlineTreeToNode g sr t) → e ∈ label → ¬ highlighted e.
Proof.
  revert label. induction t as [id ic k tokens text below IH]
    using OutlineTree_induction.
  intros label Hlabel He.
  assert (label = renderItem g (mkOutlineTree id ic k tokens text below) None
          ∨ ∃ c, c ∈ below ∧ label ∈ labels (_outlineTreeToNode g sr c))
    as [->|(c & Hc & Hbelow)].
  { destruct below as [|c0 below0].
    - left. by apply list_elem_of_singleton in Hlabel.
    - cbn [_outlineTreeToNode labels] in Hlabel.
      apply elem_of_cons in Hlabel as [->|Hlabel]; [by left|]. right.
      apply list_elem_of_join in Hlabel as (ls & Hin & Hls).
      apply list_elem_of_fmap in Hls as (n & -> & Hn).
      apply list_elem_of_fmap in Hn as (c & -> & Hc). eauto. }
  - by eapply renderItem_plain.
  - rewrite Forall_forall in IH. by eapply IH.
Qed.





(** ** The collapsed paths *)

#[global] Instance path_eqb_laws : @ArrayEqualLaws path_eqb.
Proof. intros a b. unfold arrayEqual, path_eqb. apply bool_decide_eq_true. Qed.

Section collapsed.
Context `{!ArrayEqual} `{!ArrayEqualLaws}.

Lemma arrayEqual_false a b : arrayEqual a b = false ↔ a ≠ b.
Proof.
  rewrite <- arrayEqual_true. destruct (arrayEqual a b); split; congruence.
Qed.

Lemma find_equal p (l : list NodePath) :
  List.find (λ path, arrayEqual path p) l = None ↔ p ∉ l.
Proof.
  induction l as [|q l IH]; simpl.
  { split; [intros _ Hin; by apply elem_of_nil in Hin|done]. }
  destruct (arrayEqual q p) eqn:Hq.
  - apply arrayEqual_true in Hq as ->. split; [done|].
    intros Hp. destruct Hp. apply list_elem_of_here.
  - apply arrayEqual_false in Hq. rewrite IH, not_elem_of_cons.
    split; [by split|by intros [_ ?]].
Qed.

Lemma filter_unequal p (l : list NodePath) :
  List.filter (λ path, negb (arrayEqual path p)) l = filter (λ path, path ≠ p) l.
Proof.
  induction l as [|q l IH]; [done|]. simpl. rewrite filter_cons.
  destruct (arrayEqual q p) eqn:Hq; simpl.
  - apply arrayEqual_true in Hq. by rewrite decide_False by (by intros []).
  - apply arrayEqual_false in Hq. by rewrite decide_True, IH.
Qed.

Lemma collapsedPaths_handleCollapse p s :
  collapsedPaths (_handleCollapse p s) =
    if decide (p ∈ collapsedPaths s) then collapsedPaths s
    else collapsedPaths s ++ [p].
Proof.
  unfold _handleCollapse, collapse_update.
  destruct (List.find _ _) as [existing|] eqn:Hfind.
  - rewrite decide_True; [done|].
    destruct (decide (p ∈ collapsedPaths s)) as [|Hp]; [done|].
    apply find_equal in Hp. congruence.
  - apply find_equal in Hfind. by rewrite decide_False.
Qed.

Lemma collapsedPaths_handleExpand p s :
  collapsedPaths (_handleExpand p s) = filter (λ path, path ≠ p) (collapsedPaths s).
Proof. unfold _handleExpand, expand_update. simpl. apply filter_unequal. Qed.

Lemma handle_collapsed s c p :
  NoDup (collapsedPaths s) →
  NoDup (collapsedPaths (handle s c))
  ∧ (p ∈ collapsedPaths (handle s c) ↔
     match c with
     | collapse q => q = p ∨ p ∈ collapsedPaths s
     | expand q => q ≠ p ∧ p ∈ collapsedPaths s
     end)
  ∧ searchResults (handle s c) = searchResults s.
Proof.
  intros Hs. destruct c as [q|q]; cbn [handle].
  - rewrite collapsedPaths_handleCollapse. split_and!.
    + case_decide; [done|]. apply NoDup_app. split_and!; [done| |apply NoDup_singleton].
      intros x Hx ->%list_elem_of_singleton. done.
    + case_decide as Hq.
      * split; [by right|]. by intros [<-|?].
      * rewrite elem_of_app, list_elem_of_singleton.
        split; (intros [?|?]; [by right|by left]).
    + unfold _handleCollapse. by destruct (collapse_update _ _ _).
  - rewrite collapsedPaths_handleExpand. split_and!.
    + by apply NoDup_filter.
    + rewrite list_elem_of_filter.
      split; (intros [? ?]; split; [congruence|done]).
    + done.
Qed.

Lemma clicks_collapsed clicks :
  ∀ s p,
    NoDup (collapsedPaths s) →
    NoDup (collapsedPaths (foldl handle s clicks))
    ∧ (p ∈ collapsedPaths (foldl handle s clicks) ↔
       collapsed_after clicks p (bool_decide (p ∈ collapsedPaths s)) = true)
    ∧ searchResults (foldl handle s clicks) = searchResults s.
Proof.
  induction clicks as [|c clicks IH]; intros s p Hs.
  { simpl. split_and!; [done| |done]. by rewrite bool_decide_eq_true. }
  destruct (handle_collapsed s c p Hs) as (Hs' & Hp & Hsr).
  destruct (IH (handle s c) p Hs') as (Hnodup & Hin & Hsr').
  cbn [foldl]. split_and!; [done| |congruence].
  rewrite Hin. destruct c as [q|q]; cbn [collapsed_after].
  - destruct (decide (q = p)) as [->|Hne].
    + rewrite (bool_decide_eq_true_2 (p = p)) by done.
      rewrite (bool_decide_eq_true_2 (p ∈ _)); [done|]. apply Hp. by left.
    + rewrite (bool_decide_eq_false_2 (q = p)) by done.
      rewrite (bool_decide_ext _ (p ∈ collapsedPaths s)); [done|].
      rewrite Hp. split; [by intros [?|?]|by right].
  - destruct (decide (q = p)) as [->|Hne].
    + rewrite (bool_decide_eq_true_2 (p = p)) by done.
      rewrite (bool_decide_eq_false_2 (p ∈ _)); [done|]. rewrite Hp.
      by intros [? _].
    + rewrite (bool_decide_eq_false_2 (q = p)) by done.
      rewrite (bool_decide_ext _ (p ∈ collapsedPaths s)); [done|].
      rewrite Hp. split; [by intros [_ ?]|by split].
Qed.

(** X21: after any clicks on the tree since the view was made (each handled
    before the next), a path is among the collapsed paths exactly when the
    last click on it was a collapse; no path is there twice, and the search
    results are not touched. *)
Theorem collapsed_by_last_click clicks p :
  let s := foldl handle initial_state clicks in
  NoDup (collapsedPaths s)
  ∧ (p ∈ collapsedPaths s ↔ collapsed_after clicks p false = true)
  ∧ searchResults s = ∅.
Proof.
  intros s. unfold s.
  destruct (clicks_collapsed clicks initial_state p) as (H1 & H2 & H3).
  { constructor. }
  split_and!; [done| |done]. rewrite H2.
  rewrite (bool_decide_eq_false_2 (p ∈ _)); [done|]. by intros ?%elem_of_nil.
Qed.

(** X22: expanding a path that was just collapsed gives back the state
    before, when the path was not collapsed then; and collapsing a path
    twice is collapsing it once. *)
Theorem collapse_then_expand p s :
  (p ∉ collapsedPaths s → _handleExpand p (_handleCollapse p s) = s)
  ∧ _handleCollapse p (_handleCollapse p s) = _handleCollapse p s.
Proof.
  assert (∀ s', p ∈ collapsedPaths s' → _handleCollapse p s' = s') as Hthere.
  { intros s' Hp. unfold _handleCollapse, collapse_update.
    destruct (List.find _ _) eqn:Hfind; [done|]. by apply find_equal in Hfind. }
  split.
  - intros Hp. unfold _handleExpand, expand_update, merge.
    rewrite filter_unequal, collapsedPaths_handleCollapse, decide_False by done.
    rewrite filter_app, filter_cons_False, filter_nil, app_nil_r
      by (intros Hn; by apply Hn).
    rewrite FakeTimerFacts.filter_all.
    + unfold _handleCollapse, collapse_update.
      destruct (List.find _ _); by destruct s.
    + apply Forall_forall. by intros q Hq ->.
  - apply Hthere. rewrite collapsedPaths_handleCollapse.
    case_decide; [done|]. apply elem_of_app. right. apply list_elem_of_here.
Qed.

End collapsed.

(** ** The outline of the example *)

Lemma selectNodeFromPath_child_witness :
  selectNodeFromPath (outline example_trees) ([0] ++ [1]) =
    normal (Some (mkOutlineTree 3 None (Some "method") None (Some "baz") [])).
Proof.
  apply (selectNodeFromPath_child (outline example_trees) [0]
           (mkOutlineTree 1 None (Some "class")
              (Some [mkTextToken keyword "class"; mkTextToken whitespace " ";
                     mkTextToken class_name "Foo"]) None
              [mkOutlineTree 2 None (Some "method") None (Some "bar") [];
               mkOutlineTree 3 None (Some "method") None (Some "baz") []]) 1).
  reflexivity.
Defined.

Lemma shown_node_selects_its_outline_node_witness :
  ∃ t, selectNodeFromPath (outline example_trees) [0; 1] = normal (Some t)
       ∧ LEAF [Atomicon "method"; text_child (Text "baz")] None
         = _outlineTreeToNode no_icons ∅ t.
Proof.
  apply (proj2 (shown_node_selects_its_outline_node no_icons ∅ example_trees
                  [0; 1])).
  reflexivity.
Defined.

Lemma shown_labels_not_highlighted_witness :
  ¬ highlighted (token_span "syntax--keyword" 0 (Text "class")).
Proof.
  apply (shown_labels_not_highlighted no_icons
           {[ 1 := mkSearchResult true true (Some [0; 1]%Z) ]}
           (mkOutlineTree 1 None (Some "class")
              (Some [mkTextToken keyword "class"; mkTextToken whitespace " ";
                     mkTextToken class_name "Foo"]) None [])
           [Atomicon "class"; token_span "syntax--keyword" 0 (Text "class");
            token_span "" 1 (Text " ");
            token_span "syntax--entity syntax--name syntax--class" 2 (Text "Foo")]).
  - apply list_elem_of_here.
  - apply list_elem_of_further, list_elem_of_here.
Defined.


Lemma collapsed_by_last_click_witness :
  [1] ∈ collapsedPaths
          (foldl (@handle path_eqb) initial_state
             [collapse [0]; collapse [1]; expand [0]]).
Proof.
  apply (proj1 (proj2 (@collapsed_by_last_click path_eqb _
                         [collapse [0]; collapse [1]; expand [0]] [1]))).
  reflexivity.
Defined.

Lemma collapse_then_expand_witness :
  @_handleExpand path_eqb [0; 1]
    (@_handleCollapse path_eqb [0; 1] (mkCoreState [[0]] ∅))
  = mkCoreState [[0]] ∅.
Proof.
  apply (proj1 (@collapse_then_expand path_eqb _ [0; 1] (mkCoreState [[0]] ∅))).
  simpl. intros Hin. apply list_elem_of_singleton in Hin. discriminate.
Defined.

End OutlineViewFacts.
